(** * cpp-tp: a worker-thread pool (cpp-tp.hpp)

    The class [ThreadPool] keeps a FIFO queue of jobs, a set of worker
    threads that run [workerLoop], a stopped flag, a pending-jobs counter
    and two condition variables, all guarded by one mutex.

    The embedding is an interleaving semantics at the granularity of the
    critical sections of the source: every block that runs with
    [m_management_mutex] held is one atomic transition of the pool.  A
    worker thread is represented by the place it has reached in
    [workerLoop]; a thread that called [wait] or [stop] and has not
    returned yet is recorded in the wait set of [m_counter_cv], among the
    threads woken from it, or among the threads inside the join loop of
    [stop].  What the environment decides (which thread a [notify_one]
    wakes, what [std::thread::hardware_concurrency] answers, spurious
    wake-ups) is carried by the events. *)

From Stdlib Require Import ZArith Lia.
From stdpp Require Import base option list gmap.

(** ** Machine integers *)

(** [size_t] and [ssize_t] are 64 bits wide. *)
Definition SIZE_WIDTH : Z := 64%Z.
Definition SSIZE_MAX : Z := (2 ^ 63 - 1)%Z.
Definition SSIZE_MIN : Z := (- 2 ^ 63)%Z.

(** Conversion of a mathematical integer to [size_t] (modulo 2^64). *)
Definition to_size (z : Z) : Z := (z mod 2 ^ SIZE_WIDTH)%Z.

(** Conversion to [ssize_t]: two's complement wrap-around. *)
Definition to_ssize (z : Z) : Z := ((z + 2 ^ 63) mod 2 ^ SIZE_WIDTH - 2 ^ 63)%Z.

(** ** Data model *)

(** A job is an opaque callable; the pool never looks inside it, so a job
    is represented by an identifier. *)
Definition Job : Type := nat.

(** Identifier of a thread that calls the public interface. *)
Definition tid : Type := nat.

(** Where a worker thread is in [workerLoop]. *)
Inductive worker_pc : Type :=
| AtLoopHead                (* about to lock and evaluate the wait predicate *)
| InManagementWait          (* blocked in m_management_cv.wait *)
| RunningJob (job : Job)    (* executing the job with the lock released *)
| LoopExited.               (* left the loop by break: the thread can be joined *)

Global Instance worker_pc_eq_dec : EqDecision worker_pc.
Proof. solve_decision. Defined.

Record ThreadPool : Type := mkThreadPool {
  m_stopped : bool;
  m_waiting : bool;
  m_job_queue : list Job;
  m_worker_threads : list worker_pc;
  m_pending_jobs : Z;
  (* threads blocked in m_counter_cv.wait, in order of arrival *)
  m_counter_cv : list tid;
  (* threads woken from m_counter_cv that have not re-checked the predicate *)
  counter_woken : list tid;
  (* threads inside the join loop of stop, with the index they have reached *)
  stop_joining : gmap tid nat
}.

(** ** Condition variables *)

(** [m_management_cv]: its wait set is the set of workers at
    [InManagementWait]. *)
Fixpoint wake_first (ws : list worker_pc) : list worker_pc :=
  match ws with
  | [] => []
  | InManagementWait :: ws' => AtLoopHead :: ws'
  | w :: ws' => w :: wake_first ws'
  end.

(** [notify_one] wakes one blocked worker, if there is one; [pick] is the
    scheduler's choice, and the first blocked worker is taken when [pick]
    does not name a blocked one. *)
Definition notify_one (pick : nat) (ws : list worker_pc) : list worker_pc :=
  match ws !! pick with
  | Some InManagementWait => <[pick := AtLoopHead]> ws
  | _ => wake_first ws
  end.

Definition wake (w : worker_pc) : worker_pc :=
  match w with
  | InManagementWait => AtLoopHead
  | _ => w
  end.

Definition notify_all (ws : list worker_pc) : list worker_pc := map wake ws.

(** [m_counter_cv.notify_one()]: one blocked thread moves from the wait set
    to the woken threads. *)
Definition counter_notify_one (pick : nat) (blocked woken : list tid)
  : list tid * list tid :=
  match blocked !! pick with
  | Some c => (delete pick blocked, woken ++ [c])
  | None =>
      match blocked with
      | [] => ([], woken)
      | c :: rest => (rest, woken ++ [c])
      end
  end.

(** Number of blocked workers and number of jobs being executed. *)
Definition blocked_workers (ws : list worker_pc) : nat :=
  length (filter (λ w, w = InManagementWait) ws).

Definition is_running (w : worker_pc) : bool :=
  match w with RunningJob _ => true | _ => false end.

Definition executing (ws : list worker_pc) : nat :=
  length (filter (λ w, is_running w = true) ws).

(** ** The public interface *)

(** Constructor: Stopped, no waiter, counter 0; [start] when [auto_start]. *)
Definition empty_pool : ThreadPool :=
  mkThreadPool true false [] [] 0%Z [] [] ∅.

(** [start]: lines 77-96.  [hw] is what [hardware_concurrency] answers. *)
Definition start (worker_count hw : nat) (s : ThreadPool) : bool * ThreadPool :=
  if negb (m_stopped s) then (false, s)
  else
    let worker_count := if worker_count =? 0 then hw else worker_count in
    (true,
     mkThreadPool false (m_waiting s) (m_job_queue s)
       (m_worker_threads s ++ replicate worker_count AtLoopHead)
       (m_pending_jobs s) (m_counter_cv s) (counter_woken s) (stop_joining s)).

Definition ThreadPool_ctor (auto_start : bool) (worker_count hw : nat) : ThreadPool :=
  if auto_start then snd (start worker_count hw empty_pool) else empty_pool.

(** [addJob]: lines 63-72. *)
Definition addJob (work_func : Job) (pick : nat) (s : ThreadPool) : ThreadPool :=
  mkThreadPool (m_stopped s) (m_waiting s)
    (m_job_queue s ++ [work_func])
    (notify_one pick (m_worker_threads s))
    (to_ssize (m_pending_jobs s + 1)%Z)
    (m_counter_cv s) (counter_woken s) (stop_joining s).

(** [stop], first block (lines 103-115), run by thread [c].  [Some false]
    is the early return; [None] means that [c] goes on to the join loop. *)
Definition stop_lock (c : tid) (clear_queue : bool) (s : ThreadPool)
  : option bool * ThreadPool :=
  if m_stopped s then (Some false, s)
  else
    (None,
     mkThreadPool true (m_waiting s)
       (if clear_queue then [] else m_job_queue s)
       (notify_all (m_worker_threads s))
       (m_pending_jobs s) (m_counter_cv s) (counter_woken s)
       (<[c := 0]> (stop_joining s))).

(** Outcome of one move inside the join loop of [stop]. *)
Inductive join_outcome : Type :=
| JoinReturned (result : bool) (s : ThreadPool)  (* loop done, cleared, return true *)
| JoinAdvanced (s : ThreadPool)                  (* one thread joined *)
| JoinBlocked                                    (* the thread joined is still running *)
| NotJoining.                                    (* [c] is not inside stop *)

(** [stop], lines 117-122: the loop joins the threads in order; [join]
    returns once the thread has left [workerLoop]. *)
Definition stop_join (c : tid) (s : ThreadPool) : join_outcome :=
  match stop_joining s !! c with
  | None => NotJoining
  | Some k =>
      match m_worker_threads s !! k with
      | Some LoopExited =>
          JoinAdvanced
            (mkThreadPool (m_stopped s) (m_waiting s) (m_job_queue s)
               (m_worker_threads s) (m_pending_jobs s) (m_counter_cv s)
               (counter_woken s) (<[c := S k]> (stop_joining s)))
      | Some _ => JoinBlocked
      | None =>
          JoinReturned true
            (mkThreadPool (m_stopped s) (m_waiting s) (m_job_queue s)
               [] (m_pending_jobs s) (m_counter_cv s)
               (counter_woken s) (delete c (stop_joining s)))
      end
  end.

(** Destructor: lines 57-59, [stop()] with its default argument. *)
Definition ThreadPool_dtor (c : tid) (s : ThreadPool) : option bool * ThreadPool :=
  stop_lock c true s.

Definition isStopped (s : ThreadPool) : bool := m_stopped s.

Definition pendingJobs (s : ThreadPool) : Z := to_size (m_pending_jobs s).

Definition queuedJobs (s : ThreadPool) : Z := Z.of_nat (length (m_job_queue s)).

Definition runningJobs (s : ThreadPool) : Z :=
  to_size (m_pending_jobs s - Z.of_nat (length (m_job_queue s)))%Z.

(** [wait], lines 154-163, up to the point where the caller blocks.  The
    boolean tells whether the call has returned. *)
Definition wait_enter (c : tid) (s : ThreadPool) : bool * ThreadPool :=
  if (0 <? m_pending_jobs s)%Z then
    (false,
     mkThreadPool (m_stopped s) true (m_job_queue s) (m_worker_threads s)
       (m_pending_jobs s) (m_counter_cv s ++ [c]) (counter_woken s)
       (stop_joining s))
  else (true, s).

(** [wait] after a wake-up: the lock is taken again and the predicate
    [m_pending_jobs == 0] is evaluated; the caller returns (clearing
    [m_waiting]) or blocks again. *)
Definition wait_wake (c : tid) (s : ThreadPool) : bool * ThreadPool :=
  let woken := filter (λ x, x ≠ c) (counter_woken s) in
  if (m_pending_jobs s =? 0)%Z then
    (true,
     mkThreadPool (m_stopped s) false (m_job_queue s) (m_worker_threads s)
       (m_pending_jobs s) (m_counter_cv s) woken (stop_joining s))
  else
    (false,
     mkThreadPool (m_stopped s) (m_waiting s) (m_job_queue s) (m_worker_threads s)
       (m_pending_jobs s) (m_counter_cv s ++ [c]) woken (stop_joining s)).

(** [clearQueue]: lines 167-175. *)
Definition clearQueue (s : ThreadPool) : Z * ThreadPool :=
  let queued_jobs_cleared := Z.of_nat (length (m_job_queue s)) in
  (queued_jobs_cleared,
   mkThreadPool (m_stopped s) (m_waiting s) []
     (m_worker_threads s)
     (to_ssize (m_pending_jobs s - queued_jobs_cleared)%Z)
     (m_counter_cv s) (counter_woken s) (stop_joining s)).

(** ** The worker loop *)

Definition set_worker (id : nat) (w : worker_pc) (s : ThreadPool)
  (queue : list Job) : ThreadPool :=
  mkThreadPool (m_stopped s) (m_waiting s) queue
    (<[id := w]> (m_worker_threads s))
    (m_pending_jobs s) (m_counter_cv s) (counter_woken s) (stop_joining s).

(** First critical section of the loop body, lines 188-202. *)
Definition workerLoop_fetch (id : nat) (s : ThreadPool) : option ThreadPool :=
  let predicate := negb (bool_decide (m_job_queue s = [])) || m_stopped s in
  if predicate then
    if negb (m_stopped s) then
      match m_job_queue s with
      | job :: rest => Some (set_worker id (RunningJob job) s rest)
      | [] => None
      end
    else Some (set_worker id LoopExited s (m_job_queue s))
  else Some (set_worker id InManagementWait s (m_job_queue s)).

(** Second critical section, lines 206-216, entered when the job returns. *)
Definition workerLoop_finish (id pick : nat) (s : ThreadPool) : ThreadPool :=
  let pending := to_ssize (m_pending_jobs s - 1)%Z in
  let cv :=
    if (pending =? 0)%Z && m_waiting s
    then counter_notify_one pick (m_counter_cv s) (counter_woken s)
    else (m_counter_cv s, counter_woken s) in
  mkThreadPool (m_stopped s) (m_waiting s) (m_job_queue s)
    (<[id := AtLoopHead]> (m_worker_threads s))
    pending (fst cv) (snd cv) (stop_joining s).

(** One move of worker [id]; [None] when the worker cannot move (blocked,
    exited, or no such thread). *)
Definition workerLoop_step (id pick : nat) (s : ThreadPool) : option ThreadPool :=
  match m_worker_threads s !! id with
  | Some AtLoopHead => workerLoop_fetch id s
  | Some (RunningJob _) => Some (workerLoop_finish id pick s)
  | Some InManagementWait => None
  | Some LoopExited => None
  | None => None
  end.

(** ** Interleavings *)

Inductive event : Type :=
| EvAddJob (work_func : Job) (pick : nat)
| EvStart (worker_count hw : nat)
| EvStop (c : tid) (clear_queue : bool)
| EvJoin (c : tid)
| EvWait (c : tid)
| EvWaitWake (c : tid)
| EvClearQueue
| EvWorker (id pick : nat)
| EvSpuriousWorker (id : nat)
| EvSpuriousWaiter (c : tid).

(** A thread inside [wait] or [stop] cannot start another call.  The join
    loop of [stop] reads [m_worker_threads] with the lock released, so a
    [start] that runs while some thread is inside that loop races with it on
    the vector; [start] and [stop] are serialized by the caller, and [start]
    is not enabled while a thread is joining. *)
Definition busy (c : tid) (s : ThreadPool) : bool :=
  bool_decide (c ∈ m_counter_cv s) || bool_decide (c ∈ counter_woken s)
  || bool_decide (is_Some (stop_joining s !! c)).

Definition spurious_worker (id : nat) (s : ThreadPool) : option ThreadPool :=
  match m_worker_threads s !! id with
  | Some InManagementWait => Some (set_worker id AtLoopHead s (m_job_queue s))
  | _ => None
  end.

Definition spurious_waiter (c : tid) (s : ThreadPool) : option ThreadPool :=
  if bool_decide (c ∈ m_counter_cv s) then
    Some (mkThreadPool (m_stopped s) (m_waiting s) (m_job_queue s)
            (m_worker_threads s) (m_pending_jobs s)
            (filter (λ x, x ≠ c) (m_counter_cv s))
            (counter_woken s ++ [c]) (stop_joining s))
  else None.

Definition step (e : event) (s : ThreadPool) : option ThreadPool :=
  match e with
  | EvAddJob work_func pick => Some (addJob work_func pick s)
  | EvStart worker_count hw =>
      if bool_decide (stop_joining s = ∅)
      then Some (snd (start worker_count hw s)) else None
  | EvStop c clear_queue =>
      if busy c s then None else Some (snd (stop_lock c clear_queue s))
  | EvJoin c =>
      match stop_join c s with
      | JoinReturned _ s' => Some s'
      | JoinAdvanced s' => Some s'
      | JoinBlocked => None
      | NotJoining => None
      end
  | EvWait c => if busy c s then None else Some (snd (wait_enter c s))
  | EvWaitWake c =>
      if bool_decide (c ∈ counter_woken s) then Some (snd (wait_wake c s)) else None
  | EvClearQueue => Some (snd (clearQueue s))
  | EvWorker id pick => workerLoop_step id pick s
  | EvSpuriousWorker id => spurious_worker id s
  | EvSpuriousWaiter c => spurious_waiter c s
  end.

Fixpoint run (evs : list event) (s : ThreadPool) : option ThreadPool :=
  match evs with
  | [] => Some s
  | e :: evs' =>
      match step e s with
      | Some s' => run evs' s'
      | None => None
      end
  end.

(** States the pool can be in: any interleaving after construction. *)
Definition reachable (s : ThreadPool) : Prop :=
  ∃ auto_start worker_count hw evs,
    run evs (ThreadPool_ctor auto_start worker_count hw) = Some s.

(** ** Predicates on pool states *)

(** Thread [c] is inside [wait]: blocked on [m_counter_cv], or woken and
    about to evaluate the predicate again. *)
Definition in_wait (c : tid) (s : ThreadPool) : Prop :=
  c ∈ m_counter_cv s ∨ c ∈ counter_woken s.


(** Every thread that the join loop of [stop] has passed has left
    [workerLoop], and the pool is Stopped while a thread is joining. *)
Definition stop_inv (s : ThreadPool) : Prop :=
  (∀ c k i, stop_joining s !! c = Some k → i < k →
            i < length (m_worker_threads s) →
            m_worker_threads s !! i = Some LoopExited) ∧
  (∀ c, is_Some (stop_joining s !! c) → m_stopped s = true).

(** Events that are neither a [start] nor a [clearQueue]. *)
Definition keeps_queue (e : event) : bool :=
  match e with
  | EvStart _ _ | EvClearQueue => false
  | _ => true
  end.

(** Events other than a move of worker [id]. *)
Definition not_worker (id : nat) (e : event) : bool :=
  match e with
  | EvWorker id' _ => negb (id' =? id)
  | _ => true
  end.

(** The accounting the counter is meant to keep: pending = queued +
    executing. *)
Definition accounting (s : ThreadPool) : Prop :=
  m_pending_jobs s =
  (Z.of_nat (length (m_job_queue s)) + Z.of_nat (executing (m_worker_threads s)))%Z.

(** The counter is never below queued + executing: the bound that rules
    out wrap-around in [clearQueue] and [runningJobs]. *)
Definition counter_covers_jobs (s : ThreadPool) : Prop :=
  (Z.of_nat (length (m_job_queue s)) + Z.of_nat (executing (m_worker_threads s))
   ≤ m_pending_jobs s)%Z.

(** ** Sample states *)

(** One worker running job 7 while threads 1 and 2 are blocked in [wait]. *)
Definition two_waiters : ThreadPool :=
  mkThreadPool false true [] [RunningJob 7] 1%Z [1; 2] [] ∅.

(** A pool with two workers, just constructed and started. *)
Definition fresh_pool : ThreadPool := ThreadPool_ctor true 2 0.

(** The pool after: construct without auto-start, submit job 7, [start(1)],
    [stop(true)] before the worker has looked at the queue, the worker
    leaves its loop, the join loop runs to its end. *)
Definition stopped_with_job_queued : list event :=
  [EvAddJob 7 0; EvStart 1 0; EvStop 0 true; EvWorker 0 0; EvJoin 0; EvJoin 0].

Definition after_stop_clear : ThreadPool :=
  mkThreadPool true false [] [] 1%Z [] [] ∅.

(** ** Observations on runs *)

(** The job an event submits, and the jobs submitted along a run. *)
Definition submission (e : event) : list Job :=
  match e with
  | EvAddJob work_func _ => [work_func]
  | _ => []
  end.

Fixpoint submitted (evs : list event) : list Job :=
  match evs with
  | [] => []
  | e :: evs' => submission e ++ submitted evs'
  end.

(** The job a transition starts: the worker that moved was at the head of
    its loop before and is running the job after. *)
Definition fetched (e : event) (s s' : ThreadPool) : list Job :=
  match e with
  | EvWorker id _ =>
      match m_worker_threads s !! id, m_worker_threads s' !! id with
      | Some AtLoopHead, Some (RunningJob job) => [job]
      | _, _ => []
      end
  | _ => []
  end.

(** The jobs started along a run, in the order in which they start. *)
Fixpoint started (evs : list event) (s : ThreadPool) : list Job :=
  match evs with
  | [] => []
  | e :: evs' =>
      match step e s with
      | Some s' => fetched e s s' ++ started evs' s'
      | None => []
      end
  end.

(** Calls that throw queued jobs away. *)
Definition discards (e : event) : bool :=
  match e with
  | EvClearQueue | EvStop _ true => true
  | _ => false
  end.

(** Events of a run in which [c] is the only thread that calls [wait] and
    nobody calls [clearQueue]. *)
Definition only_waiter (c : tid) (e : event) : bool :=
  match e with
  | EvWait c' | EvWaitWake c' | EvSpuriousWaiter c' => c' =? c
  | EvClearQueue => false
  | _ => true
  end.

(** With [c] the only waiter: nobody is inside [wait], or [c] is blocked
    with the waiter flag set and work pending, or [c] has been woken. *)
Definition single_waiter (c : tid) (s : ThreadPool) : Prop :=
  (m_counter_cv s = [] ∧ counter_woken s = []) ∨
  (m_counter_cv s = [c] ∧ counter_woken s = [] ∧ m_waiting s = true ∧
   (0 < m_pending_jobs s)%Z) ∨
  (m_counter_cv s = [] ∧ counter_woken s = [c] ∧ m_waiting s = true).

(** Moves of the workers and of the join loop of thread [c]: what [stop]
    needs to come back, without spurious wake-ups or further calls. *)
Definition stop_move (c : tid) (e : event) : bool :=
  match e with
  | EvWorker _ _ => true
  | EvJoin c' => c' =? c
  | _ => false
  end.

(** No worker is blocked on [m_management_cv]. *)
Definition none_blocked (s : ThreadPool) : Prop :=
  ∀ i, m_worker_threads s !! i ≠ Some InManagementWait.

(** A Stopped pool that no thread is stopping has no worker threads, and a
    worker of a Stopped pool is never asleep. *)
Definition stopped_inv (s : ThreadPool) : Prop :=
  m_stopped s = true →
  none_blocked s ∧ (stop_joining s = ∅ → m_worker_threads s = []).

(** One worker running job 3 while job 4 is queued. *)
Definition one_running_one_queued : ThreadPool :=
  mkThreadPool false false [4] [RunningJob 3] 2%Z [] [] ∅.

(** Events other than a [stop] that clears the queue. *)
Definition keeps_accounting (e : event) : bool :=
  match e with
  | EvStop _ true => false
  | _ => true
  end.

(** ** examples.cpp: the jobs of [TestClass] *)

(** [int] is 32 bits wide; overflow of [int] arithmetic wraps around. *)
Definition INT_MIN : Z := (- 2 ^ 31)%Z.
Definition INT_MAX : Z := (2 ^ 31 - 1)%Z.
Definition to_int (z : Z) : Z := ((z + 2 ^ 31) mod 2 ^ 32 - 2 ^ 31)%Z.

(** Sum of a list of integers, without any wrap-around. *)
Definition total (inputs : list Z) : Z := foldr Z.add 0%Z inputs.

Module TestClass.

Record ResultType : Type := mkResultType {
  result : list Z;
  sum : Z;
  even_sum : bool
}.

(** [workFunc], lines 55-62: after a random delay, which has no part in
    the value returned, the inputs are added up in an [int]. *)
Definition workFunc (inputs : list Z) : Z :=
  fold_left (λ acc i, to_int (acc + i)) inputs 0%Z.

(** [workFunc2], lines 64-76: the inputs reversed, their sum by
    [std::accumulate] from 0, and whether [sum % 2] is zero ([%]
    truncates towards zero). *)
Definition workFunc2 (inputs : list Z) : ResultType :=
  let result := rev inputs in
  let sum := fold_left (λ acc i, to_int (acc + i)) result 0%Z in
  mkResultType result sum (if negb (Z.rem sum 2 =? 0)%Z then false else true).

End TestClass.

(** Submissions of a list of jobs, one [addJob] each. *)
Definition submit_all (jobs : list Job) : list event :=
  map (λ job, EvAddJob job 0) jobs.

(** Events other than a [start]. *)
Definition not_start (e : event) : bool :=
  match e with
  | EvStart _ _ => false
  | _ => true
  end.

(** Worker 0 running job 9 while job 10 is queued and worker 1 is at the
    head of its loop; the run that leads there from [fresh_pool], and the
    moves that let a [stop] called by thread 0 come back: worker 0 finishes
    job 9 and leaves, worker 1 leaves, the join loop passes both. *)
Definition job_in_flight : ThreadPool :=
  mkThreadPool false false [10] [RunningJob 9; AtLoopHead] 2%Z [] [] ∅.

Definition to_job_in_flight : list event :=
  [EvAddJob 9 0; EvAddJob 10 0; EvWorker 0 0].

Definition drain_in_flight : list event :=
  [EvWorker 0 0; EvWorker 0 0; EvWorker 1 0; EvJoin 0; EvJoin 0].


(** * Properties *)

(** ** Machine integers *)

Lemma to_ssize_in_range (z : Z) :
  (SSIZE_MIN ≤ z ≤ SSIZE_MAX)%Z → to_ssize z = z.
Proof.
  unfold to_ssize, SSIZE_MIN, SSIZE_MAX, SIZE_WIDTH. intros Hz.
  rewrite Z.mod_small; lia.
Qed.

Lemma to_size_in_range (z : Z) :
  (0 ≤ z ≤ SSIZE_MAX)%Z → to_size z = z.
Proof.
  unfold to_size, SSIZE_MAX, SIZE_WIDTH. intros Hz.
  rewrite Z.mod_small; lia.
Qed.

(** ** Condition variables *)

Lemma blocked_workers_cons (w : worker_pc) (ws : list worker_pc) :
  blocked_workers (w :: ws) =
  ((if decide (w = InManagementWait) then 1 else 0) + blocked_workers ws)%nat.
Proof.
  unfold blocked_workers. rewrite filter_cons.
  destruct (decide (w = InManagementWait)); reflexivity.
Qed.

Lemma blocked_workers_wake_at (ws : list worker_pc) (i : nat) :
  ws !! i = Some InManagementWait →
  S (blocked_workers (<[i := AtLoopHead]> ws)) = blocked_workers ws.
Proof.
  revert i. induction ws as [|w ws IH]; intros [|i] Hi; simplify_eq/=.
  - rewrite !blocked_workers_cons.
    destruct (decide (AtLoopHead = InManagementWait)); [discriminate|].
    destruct (decide (InManagementWait = InManagementWait)); [|contradiction].
    reflexivity.
  - rewrite !blocked_workers_cons, <- (IH i Hi). lia.
Qed.

Lemma blocked_workers_none (ws : list worker_pc) :
  blocked_workers ws = 0%nat ↔ ∀ i, ws !! i ≠ Some InManagementWait.
Proof.
  induction ws as [|w ws IH].
  - split; [intros _ i; rewrite lookup_nil; discriminate | reflexivity].
  - rewrite blocked_workers_cons. split.
    + intros H [|i]; simpl.
      * destruct (decide (w = InManagementWait)); [lia | congruence].
      * apply IH. lia.
    + intros H. destruct (decide (w = InManagementWait)) as [->|_].
      * destruct (H 0%nat). reflexivity.
      * simpl. apply IH. intros i. apply (H (S i)).
Qed.

(** [wake_first] moves the first blocked worker to the head of the loop and
    touches nothing else. *)
Lemma wake_first_spec (ws : list worker_pc) :
  (blocked_workers ws = 0%nat ∧ wake_first ws = ws) ∨
  (∃ i, ws !! i = Some InManagementWait ∧ wake_first ws = <[i := AtLoopHead]> ws).
Proof.
  induction ws as [|w ws IH]; [left; split; reflexivity|].
  destruct (decide (w = InManagementWait)) as [->|Hw].
  - right. exists 0%nat. split; reflexivity.
  - assert (wake_first (w :: ws) = w :: wake_first ws) as ->
      by (destruct w; [reflexivity | contradiction | reflexivity | reflexivity]).
    destruct IH as [[H0 ->]|(i & Hi & ->)].
    + left. split; [|reflexivity]. rewrite blocked_workers_cons.
      destruct (decide (w = InManagementWait)); [contradiction | exact H0].
    + right. exists (S i). split; [exact Hi | reflexivity].
Qed.

(** [notify_one] wakes exactly one blocked worker when there is one, and
    does nothing otherwise. *)
Lemma notify_one_spec (pick : nat) (ws : list worker_pc) :
  (blocked_workers ws = 0%nat ∧ notify_one pick ws = ws) ∨
  (∃ i, ws !! i = Some InManagementWait ∧
        notify_one pick ws = <[i := AtLoopHead]> ws).
Proof.
  unfold notify_one. destruct (ws !! pick) as [w|] eqn:Hp.
  - destruct w; try apply wake_first_spec.
    right. exists pick. split; [exact Hp | reflexivity].
  - apply wake_first_spec.
Qed.

Lemma notify_all_lookup (ws : list worker_pc) (i : nat) :
  notify_all ws !! i = wake <$> ws !! i.
Proof. unfold notify_all. apply list_lookup_fmap. Qed.

Lemma notify_all_no_blocked (ws : list worker_pc) :
  blocked_workers (notify_all ws) = 0%nat.
Proof.
  apply blocked_workers_none. intros i. rewrite notify_all_lookup.
  destruct (ws !! i) as [[]|]; simpl; congruence.
Qed.

Lemma notify_all_running (ws : list worker_pc) (i : nat) (job : Job) :
  notify_all ws !! i = Some (RunningJob job) ↔ ws !! i = Some (RunningJob job).
Proof.
  rewrite notify_all_lookup.
  destruct (ws !! i) as [[]|]; simpl; split; congruence.
Qed.

Lemma notify_all_exited (ws : list worker_pc) (i : nat) :
  notify_all ws !! i = Some LoopExited ↔ ws !! i = Some LoopExited.
Proof.
  rewrite notify_all_lookup.
  destruct (ws !! i) as [[]|]; simpl; split; congruence.
Qed.

Lemma counter_notify_one_spec (pick : nat) (blocked woken : list tid) :
  blocked ≠ [] →
  ∃ i c, blocked !! i = Some c ∧
         counter_notify_one pick blocked woken = (delete i blocked, woken ++ [c]).
Proof.
  intros Hne. unfold counter_notify_one.
  destruct (blocked !! pick) as [c|] eqn:Hp.
  - exists pick, c. split; [exact Hp | reflexivity].
  - destruct blocked as [|c rest]; [contradiction|].
    exists 0%nat, c. split; reflexivity.
Qed.

(** ** The worker loop *)

(** The three ways through the first critical section of the loop body:
    leave the loop when Stopped, block on an empty queue, or take the job
    at the head of the queue. *)
Lemma workerLoop_fetch_cases (id : nat) (s s' : ThreadPool) :
  workerLoop_fetch id s = Some s' →
  (m_stopped s = true ∧ s' = set_worker id LoopExited s (m_job_queue s)) ∨
  (m_stopped s = false ∧ m_job_queue s = [] ∧
   s' = set_worker id InManagementWait s (m_job_queue s)) ∨
  (m_stopped s = false ∧
   ∃ job rest, m_job_queue s = job :: rest ∧
               s' = set_worker id (RunningJob job) s rest).
Proof.
  unfold workerLoop_fetch. intros H.
  destruct (m_stopped s) eqn:Hst.
  - rewrite orb_true_r in H. simpl in H. left. split; congruence.
  - rewrite orb_false_r in H. simpl in H. right.
    destruct (m_job_queue s) as [|job rest] eqn:Hq; simpl in H.
    + left. repeat split; congruence.
    + right. split; [reflexivity|]. exists job, rest. split; congruence.
Qed.

Lemma workerLoop_step_cases (id pick : nat) (s s' : ThreadPool) :
  workerLoop_step id pick s = Some s' →
  (m_worker_threads s !! id = Some AtLoopHead ∧ workerLoop_fetch id s = Some s') ∨
  (∃ job, m_worker_threads s !! id = Some (RunningJob job) ∧
          s' = workerLoop_finish id pick s).
Proof.
  unfold workerLoop_step. intros H.
  destruct (m_worker_threads s !! id) as [[| |job|]|] eqn:Hw; try discriminate.
  - left. split; [reflexivity | exact H].
  - right. exists job. split; congruence.
Qed.

(** A worker step either leaves the queue alone or removes its head, which
    becomes the job that worker runs. *)
Lemma workerLoop_step_queue (id pick : nat) (s s' : ThreadPool) :
  workerLoop_step id pick s = Some s' →
  m_job_queue s' = m_job_queue s ∨
  (m_stopped s = false ∧
   ∃ job, m_job_queue s = job :: m_job_queue s' ∧
          m_worker_threads s !! id = Some AtLoopHead ∧
          m_worker_threads s' !! id = Some (RunningJob job)).
Proof.
  intros H. apply workerLoop_step_cases in H as [[Hw H]|(job & Hw & ->)].
  - apply workerLoop_fetch_cases in H
      as [[_ ->]|[(_ & _ & ->)|(Hst & job & rest & Hq & ->)]];
      [left; reflexivity | left; reflexivity |].
    right. split; [exact Hst|]. exists job. simpl.
    split; [exact Hq|]. split; [exact Hw|].
    apply list_lookup_insert_eq. eapply lookup_lt_Some, Hw.
  - left. reflexivity.
Qed.

(** A pool built without auto-start holds a submitted job until it is
    started; one worker then runs it, and a thread that called [wait]
    meanwhile returns once the job is done. *)
Example submit_start_wait :
  pendingJobs (addJob 7 0 (ThreadPool_ctor false 0 0)) = 1%Z ∧
  queuedJobs (addJob 7 0 (ThreadPool_ctor false 0 0)) = 1%Z ∧
  ∃ s, run [EvAddJob 7 0; EvStart 1 0; EvWorker 0 0; EvWait 1; EvWorker 0 0;
            EvWaitWake 1] (ThreadPool_ctor false 0 0) = Some s ∧
       pendingJobs s = 0%Z ∧ runningJobs s = 0%Z ∧
       m_counter_cv s = [] ∧ counter_woken s = [].
Proof.
  split; [reflexivity|]. split; [reflexivity|].
  eexists. split; [vm_compute; reflexivity|]. repeat split.
Qed.

(** ** Queue and accounting *)

(** C3.  [clearQueue] empties the queue, leaves every worker (hence every
    job already dequeued) as it is, decrements the pending-jobs counter by
    the number of jobs removed and returns that number, so [pendingJobs]
    drops by the returned count.  The counter is taken to be at least the
    queue length and within [ssize_t]; [counter_covers_jobs] is kept by
    every transition of a pool whose counter does not overflow. *)
Theorem clearQueue_removes_queued (s : ThreadPool) :
  (Z.of_nat (length (m_job_queue s)) ≤ m_pending_jobs s ≤ SSIZE_MAX)%Z →
  let removed := fst (clearQueue s) in
  let s' := snd (clearQueue s) in
  removed = Z.of_nat (length (m_job_queue s)) ∧
  m_job_queue s' = [] ∧
  queuedJobs s' = 0%Z ∧
  m_worker_threads s' = m_worker_threads s ∧
  m_stopped s' = m_stopped s ∧
  m_pending_jobs s' = (m_pending_jobs s - removed)%Z ∧
  pendingJobs s' = (pendingJobs s - removed)%Z.
Proof.
  intros Hrange. simpl. unfold pendingJobs, queuedJobs. simpl.
  assert (to_ssize (m_pending_jobs s - Z.of_nat (length (m_job_queue s)))
          = (m_pending_jobs s - Z.of_nat (length (m_job_queue s)))%Z) as Hs.
  { apply to_ssize_in_range. unfold SSIZE_MIN, SSIZE_MAX in *. lia. }
  rewrite Hs. repeat split.
  rewrite !to_size_in_range; [reflexivity | lia | lia].
Qed.

Lemma clearQueue_removes_queued_witness :
  let s := addJob 4 0 (addJob 3 0 empty_pool) in
  (Z.of_nat (length (m_job_queue s)) ≤ m_pending_jobs s ≤ SSIZE_MAX)%Z ∧
  fst (clearQueue s) = 2%Z ∧
  pendingJobs (snd (clearQueue s)) = (pendingJobs s - fst (clearQueue s))%Z.
Proof.
  intros s.
  assert ((Z.of_nat (length (m_job_queue s)) ≤ m_pending_jobs s ≤ SSIZE_MAX)%Z)
    as Hrange by (vm_compute; split; discriminate).
  split; [exact Hrange|].
  destruct (clearQueue_removes_queued _ Hrange) as (Hr & _ & _ & _ & _ & _ & Hp).
  split; [exact Hr | exact Hp].
Defined.

(** C5.  [addJob] can always be taken (Running or Stopped), appends the job
    at the tail of the queue, increments the pending-jobs counter by one and
    wakes one blocked worker if there is one and none otherwise.  A worker
    step that changes the queue removes its head, and in a Running pool a
    worker at the head of its loop does take a job at its next step: the
    oldest one in the queue, which the submission has left in front of the
    new job. *)
Theorem addJob_fifo (s : ThreadPool) (work_func : Job) (pick : nat) :
  (SSIZE_MIN ≤ m_pending_jobs s < SSIZE_MAX)%Z →
  let s' := addJob work_func pick s in
  step (EvAddJob work_func pick) s = Some s' ∧
  m_stopped s' = m_stopped s ∧
  m_job_queue s' = m_job_queue s ++ [work_func] ∧
  m_pending_jobs s' = (m_pending_jobs s + 1)%Z ∧
  ((blocked_workers (m_worker_threads s) = 0%nat ∧
    m_worker_threads s' = m_worker_threads s) ∨
   (∃ i, m_worker_threads s !! i = Some InManagementWait ∧
         m_worker_threads s' = <[i := AtLoopHead]> (m_worker_threads s) ∧
         S (blocked_workers (m_worker_threads s')) =
         blocked_workers (m_worker_threads s))) ∧
  (∀ id pick' t,
     workerLoop_step id pick' s' = Some t →
     m_job_queue t ≠ m_job_queue s' →
     ∃ oldest,
       m_job_queue s ++ [work_func] = oldest :: m_job_queue t ∧
       m_worker_threads t !! id = Some (RunningJob oldest) ∧
       (∀ job rest, m_job_queue s = job :: rest →
                    oldest = job ∧ m_job_queue t = rest ++ [work_func])) ∧
  (∀ id pick',
     m_stopped s = false →
     m_worker_threads s' !! id = Some AtLoopHead →
     ∃ t oldest,
       workerLoop_step id pick' s' = Some t ∧
       m_job_queue s ++ [work_func] = oldest :: m_job_queue t ∧
       m_worker_threads t !! id = Some (RunningJob oldest) ∧
       m_pending_jobs t = m_pending_jobs s' ∧
       (∀ job rest, m_job_queue s = job :: rest →
                    oldest = job ∧ m_job_queue t = rest ++ [work_func]) ∧
       (m_job_queue s = [] → oldest = work_func ∧ m_job_queue t = [])).
Proof.
  intros Hrange s'. subst s'. simpl.
  split; [reflexivity|]. split; [reflexivity|]. split; [reflexivity|].
  split; [apply to_ssize_in_range; unfold SSIZE_MIN, SSIZE_MAX in *; lia|].
  split; [|split].
  - destruct (notify_one_spec pick (m_worker_threads s)) as [H|(i & Hi & Hn)].
    + left. exact H.
    + right. exists i. split; [exact Hi|]. split; [exact Hn|].
      rewrite Hn. apply blocked_workers_wake_at, Hi.
  - intros id pick' t Hstep Hneq.
    apply workerLoop_step_queue in Hstep as [Heq|(_ & oldest & Hq & _ & Hw)];
      [contradiction|].
    simpl in Hq. exists oldest. split; [exact Hq|]. split; [exact Hw|].
    intros job rest Hs. rewrite Hs in Hq. simpl in Hq.
    injection Hq as -> ->. split; reflexivity.
  - intros id pick' Hst Hw.
    destruct (m_job_queue s ++ [work_func]) as [|oldest rest] eqn:Hq;
      [destruct (app_cons_not_nil _ _ _ (eq_sym Hq))|].
    exists (set_worker id (RunningJob oldest) (addJob work_func pick s) rest), oldest.
    split.
    { unfold workerLoop_step, workerLoop_fetch. simpl. rewrite Hw. simpl.
      rewrite Hst, Hq. reflexivity. }
    simpl. split; [reflexivity|]. split.
    { apply list_lookup_insert_eq. eapply lookup_lt_Some, Hw. }
    split; [reflexivity|]. split.
    + intros job rest' Hs. rewrite Hs in Hq. simpl in Hq.
      injection Hq as -> ->. split; reflexivity.
    + intros Hs. rewrite Hs in Hq. simpl in Hq.
      injection Hq as -> ->. split; reflexivity.
Qed.

Lemma addJob_fifo_witness :
  let s := snd (start 1 0 (addJob 5 0 empty_pool)) in
  (SSIZE_MIN ≤ m_pending_jobs s < SSIZE_MAX)%Z ∧
  m_job_queue s = [5] ∧
  m_job_queue (addJob 6 0 s) = [5; 6] ∧
  m_pending_jobs (addJob 6 0 s) = (m_pending_jobs s + 1)%Z ∧
  ∃ t, workerLoop_step 0 0 (addJob 6 0 s) = Some t ∧
       m_worker_threads t !! 0 = Some (RunningJob 5) ∧
       m_job_queue t = [6].
Proof.
  intros s.
  assert ((SSIZE_MIN ≤ m_pending_jobs s < SSIZE_MAX)%Z)
    as Hrange by (vm_compute; split; [discriminate | reflexivity]).
  split; [exact Hrange|]. split; [reflexivity|].
  destruct (addJob_fifo s 6 0 Hrange) as (_ & _ & Hq & Hp & _ & _ & Hfetch).
  split; [exact Hq|]. split; [exact Hp|].
  destruct (Hfetch 0 0 eq_refl eq_refl) as (t & oldest & Hstep & _ & Hw & _ & Hold & _).
  destruct (Hold 5 [] eq_refl) as [-> Ht].
  exists t. split; [exact Hstep|]. split; [exact Hw | exact Ht].
Defined.

(** ** Start and stop *)

(** C6.  [start] fails exactly when the pool is Running and [stop] fails
    exactly when it is Stopped; a failing call leaves the whole pool as it
    was (no worker added, no thread joined, queue untouched) and a call that
    goes through changes it.  Both report the conflict through their
    boolean result; a [stop] that goes through returns [true]. *)
Theorem start_stop_state_conflict
  (s : ThreadPool) (worker_count hw : nat) (c : tid) (clear_queue : bool) :
  (fst (start worker_count hw s) = false ↔ m_stopped s = false) ∧
  (snd (start worker_count hw s) = s ↔ m_stopped s = false) ∧
  (fst (stop_lock c clear_queue s) = Some false ↔ m_stopped s = true) ∧
  (snd (stop_lock c clear_queue s) = s ↔ m_stopped s = true) ∧
  (fst (stop_lock c clear_queue s) = None ↔ m_stopped s = false) ∧
  (∀ result s', stop_join c s = JoinReturned result s' → result = true).
Proof.
  unfold start, stop_lock, stop_join.
  destruct (m_stopped s) eqn:Hst; simpl.
  - repeat split; try congruence.
    + intros H. apply (f_equal m_stopped) in H. simpl in H. congruence.
    + intros result s' H.
      destruct (stop_joining s !! c) as [k|]; [|discriminate].
      destruct (m_worker_threads s !! k) as [[]|]; congruence.
  - repeat split; try congruence.
    + intros H. apply (f_equal m_stopped) in H. simpl in H. congruence.
    + intros result s' H.
      destruct (stop_joining s !! c) as [k|]; [|discriminate].
      destruct (m_worker_threads s !! k) as [[]|]; congruence.
Qed.

(** A worker at the head of the loop can always move. *)
Lemma workerLoop_fetch_total (id : nat) (s : ThreadPool) :
  is_Some (workerLoop_fetch id s).
Proof.
  unfold workerLoop_fetch.
  destruct (m_stopped s); [rewrite orb_true_r; simpl; eauto|].
  rewrite orb_false_r. destruct (m_job_queue s); simpl; eauto.
Qed.

(** C7.  On a Stopped pool [start n] with [n > 0] returns success, makes the
    pool Running and adds exactly [n] worker threads, each at the head of
    the worker loop and able to take its first step; [start 0] adds one
    worker per hardware execution unit instead.  Queue and counter are not
    touched. *)
Theorem start_spawns_workers (s : ThreadPool) (worker_count hw : nat) :
  m_stopped s = true →
  let s' := snd (start worker_count hw s) in
  fst (start worker_count hw s) = true ∧
  m_stopped s' = false ∧
  (0 < worker_count →
   m_worker_threads s' = m_worker_threads s ++ replicate worker_count AtLoopHead ∧
   length (m_worker_threads s') = length (m_worker_threads s) + worker_count) ∧
  (worker_count = 0 →
   m_worker_threads s' = m_worker_threads s ++ replicate hw AtLoopHead ∧
   length (m_worker_threads s') = length (m_worker_threads s) + hw) ∧
  (∀ id pick, length (m_worker_threads s) ≤ id < length (m_worker_threads s') →
     m_worker_threads s' !! id = Some AtLoopHead ∧
     is_Some (workerLoop_step id pick s')) ∧
  m_job_queue s' = m_job_queue s ∧
  m_pending_jobs s' = m_pending_jobs s.
Proof.
  intros Hst. unfold start. rewrite Hst. simpl.
  split; [reflexivity|]. split; [reflexivity|].
  split; [|split; [|split; [|split; reflexivity]]].
  - intros Hpos. destruct worker_count as [|n]; [lia|]. simpl.
    split; [reflexivity|].
    rewrite length_app. simpl. rewrite length_replicate. reflexivity.
  - intros ->. simpl. split; [reflexivity|].
    rewrite length_app, length_replicate. reflexivity.
  - intros id pick. rewrite length_app, length_replicate. intros [Hlo Hhi].
    assert ((m_worker_threads s
             ++ replicate (if worker_count =? 0 then hw else worker_count) AtLoopHead)
            !! id = Some AtLoopHead) as Hid.
    { rewrite lookup_app_r by exact Hlo. apply lookup_replicate_2. lia. }
    split; [exact Hid|].
    unfold workerLoop_step. simpl. rewrite Hid. apply workerLoop_fetch_total.
Qed.

Lemma start_spawns_workers_witness :
  m_stopped empty_pool = true ∧
  m_worker_threads (snd (start 3 8 empty_pool))
  = [AtLoopHead; AtLoopHead; AtLoopHead] ∧
  length (m_worker_threads (snd (start 0 8 empty_pool))) = 8.
Proof.
  split; [reflexivity|].
  destruct (start_spawns_workers empty_pool 3 8 eq_refl) as (_ & _ & H3 & _).
  destruct (start_spawns_workers empty_pool 0 8 eq_refl) as (_ & _ & _ & H0 & _).
  split.
  - apply H3. lia.
  - apply H0. reflexivity.
Defined.

(** ** Waiting for completion *)


Lemma counter_notify_one_singleton (pick : nat) (c : tid) :
  counter_notify_one pick [c] [] = ([], [c]).
Proof. destruct pick; reflexivity. Qed.





(** ** Invariant of the join loop *)

Lemma notify_one_length (pick : nat) (ws : list worker_pc) :
  length (notify_one pick ws) = length ws.
Proof.
  destruct (notify_one_spec pick ws) as [[_ ->]|(i & _ & ->)];
    [reflexivity | apply length_insert].
Qed.

(** A notification changes only workers that are blocked. *)
Lemma notify_one_stable (pick : nat) (ws : list worker_pc) (i : nat) (w : worker_pc) :
  ws !! i = Some w → w ≠ InManagementWait → notify_one pick ws !! i = Some w.
Proof.
  intros Hi Hw.
  destruct (notify_one_spec pick ws) as [[_ ->]|(i0 & Hi0 & ->)]; [exact Hi|].
  rewrite list_lookup_insert_ne; [exact Hi | congruence].
Qed.

Lemma notify_all_length (ws : list worker_pc) :
  length (notify_all ws) = length ws.
Proof. apply length_map. Qed.

(** A transition that keeps the flag and the joining threads, keeps the
    number of workers and keeps exited workers exited preserves the
    invariant. *)
Lemma stop_inv_update (s s' : ThreadPool) :
  stop_inv s →
  m_stopped s' = m_stopped s →
  stop_joining s' = stop_joining s →
  length (m_worker_threads s') = length (m_worker_threads s) →
  (∀ i, m_worker_threads s !! i = Some LoopExited →
        m_worker_threads s' !! i = Some LoopExited) →
  stop_inv s'.
Proof.
  intros [Hpre Hst] Es Ej El Hex. split.
  - intros c k i Hc Hik Hi. rewrite Ej in Hc. rewrite El in Hi.
    apply Hex. eapply Hpre; eassumption.
  - intros c Hc. rewrite Ej in Hc. rewrite Es. eapply Hst, Hc.
Qed.

Lemma stop_inv_set_worker (id : nat) (w w0 : worker_pc) (s : ThreadPool)
  (queue : list Job) :
  stop_inv s →
  m_worker_threads s !! id = Some w0 → w0 ≠ LoopExited →
  stop_inv (set_worker id w s queue).
Proof.
  intros Hinv Hid Hw0.
  apply (stop_inv_update s); simpl; [exact Hinv | reflexivity | reflexivity | |].
  - apply length_insert.
  - intros i Hi. rewrite list_lookup_insert_ne; [exact Hi | congruence].
Qed.

Lemma stop_lock_inv (c : tid) (clear_queue : bool) (s : ThreadPool) :
  stop_inv s → stop_inv (snd (stop_lock c clear_queue s)).
Proof.
  intros Hinv. unfold stop_lock.
  destruct (m_stopped s) eqn:Es; simpl; [exact Hinv|].
  destruct Hinv as [Hpre Hst]. split; simpl; [|reflexivity].
  intros c' k i Hc Hik Hi. rewrite notify_all_length in Hi.
  destruct (decide (c = c')) as [->|Hne].
  - rewrite lookup_insert_eq in Hc. injection Hc as <-. lia.
  - rewrite lookup_insert_ne in Hc by exact Hne.
    apply notify_all_exited. eapply Hpre; eassumption.
Qed.

Lemma stop_inv_step (e : event) (s s' : ThreadPool) :
  step e s = Some s' → stop_inv s → stop_inv s'.
Proof.
  intros Hstep Hinv.
  destruct e as [j pick|n hw|c cq|c|c|c| |id pick|id|c]; simpl in Hstep.
  - injection Hstep as <-.
    apply (stop_inv_update s); simpl;
      [exact Hinv | reflexivity | reflexivity | apply notify_one_length |].
    intros i Hi. apply notify_one_stable; [exact Hi | discriminate].
  - destruct (bool_decide (stop_joining s = ∅)) eqn:He; [|discriminate].
    apply bool_decide_eq_true in He. injection Hstep as <-.
    unfold start. destruct (m_stopped s); simpl; [|exact Hinv].
    split; simpl.
    + intros c k i Hc. rewrite He, lookup_empty in Hc. discriminate.
    + intros c [k Hc]. rewrite He, lookup_empty in Hc. discriminate.
  - destruct (busy c s); [discriminate|]. injection Hstep as <-.
    apply stop_lock_inv, Hinv.
  - unfold stop_join in Hstep.
    destruct (stop_joining s !! c) as [k|] eqn:Hc; [|discriminate].
    destruct Hinv as [Hpre Hst].
    destruct (m_worker_threads s !! k) as [[]|] eqn:Hk; try discriminate;
      injection Hstep as <-; split; simpl.
    + intros c' k' i Hc' Hik Hi.
      destruct (decide (c = c')) as [->|Hne].
      * rewrite lookup_insert_eq in Hc'. injection Hc' as <-.
        destruct (decide (i = k)) as [->|Hik']; [exact Hk|].
        apply (Hpre c' k i Hc); [lia | exact Hi].
      * rewrite lookup_insert_ne in Hc' by exact Hne.
        eapply Hpre; eassumption.
    + intros c' Hc'. destruct (decide (c = c')) as [->|Hne].
      * apply (Hst c'). rewrite Hc. eauto.
      * rewrite lookup_insert_ne in Hc' by exact Hne. apply (Hst c'), Hc'.
    + intros c' k' i _ _ Hi. lia.
    + intros c' Hc'. destruct (decide (c = c')) as [->|Hne].
      * rewrite lookup_delete_eq in Hc'. destruct Hc' as [? ?]. discriminate.
      * rewrite lookup_delete_ne in Hc' by exact Hne. apply (Hst c'), Hc'.
  - destruct (busy c s); [discriminate|]. injection Hstep as <-.
    unfold wait_enter. destruct (0 <? m_pending_jobs s)%Z; simpl; [|exact Hinv].
    apply (stop_inv_update s); simpl; auto.
  - destruct (bool_decide (c ∈ counter_woken s)); [|discriminate].
    injection Hstep as <-. unfold wait_wake.
    destruct (m_pending_jobs s =? 0)%Z; simpl;
      apply (stop_inv_update s); simpl; auto.
  - injection Hstep as <-. apply (stop_inv_update s); simpl; auto.
  - apply workerLoop_step_cases in Hstep as [[Hw H]|(job & Hw & ->)].
    + apply workerLoop_fetch_cases in H
        as [[_ ->]|[(_ & _ & ->)|(_ & job & rest & _ & ->)]];
        (eapply stop_inv_set_worker; [exact Hinv | exact Hw | discriminate]).
    + apply (stop_inv_update s); simpl;
        [exact Hinv | reflexivity | reflexivity | apply length_insert |].
      intros i Hi. rewrite list_lookup_insert_ne; [exact Hi | congruence].
  - unfold spurious_worker in Hstep.
    destruct (m_worker_threads s !! id) as [[]|] eqn:Hw; try discriminate.
    injection Hstep as <-.
    eapply stop_inv_set_worker; [exact Hinv | exact Hw | discriminate].
  - unfold spurious_waiter in Hstep.
    destruct (bool_decide (c ∈ m_counter_cv s)); [|discriminate].
    injection Hstep as <-. apply (stop_inv_update s); simpl; auto.
Qed.

Lemma stop_inv_run (evs : list event) (s s' : ThreadPool) :
  run evs s = Some s' → stop_inv s → stop_inv s'.
Proof.
  revert s. induction evs as [|e evs IH]; intros s Hrun Hinv; simpl in Hrun.
  - injection Hrun as <-. exact Hinv.
  - destruct (step e s) as [s1|] eqn:Hstep; [|discriminate].
    eapply IH; [exact Hrun|]. eapply stop_inv_step; eassumption.
Qed.

Lemma stop_inv_ctor (auto_start : bool) (worker_count hw : nat) :
  stop_inv (ThreadPool_ctor auto_start worker_count hw).
Proof.
  unfold ThreadPool_ctor. destruct auto_start; simpl.
  - split; simpl.
    + intros c k i Hc. rewrite lookup_empty in Hc. discriminate.
    + intros c [k Hc]. rewrite lookup_empty in Hc. discriminate.
  - split; simpl.
    + intros c k i Hc. rewrite lookup_empty in Hc. discriminate.
    + reflexivity.
Qed.

Lemma reachable_stop_inv (s : ThreadPool) : reachable s → stop_inv s.
Proof.
  intros (auto_start & worker_count & hw & evs & Hrun).
  eapply stop_inv_run; [exact Hrun | apply stop_inv_ctor].
Qed.

(** [stop] leaves its join loop only when every worker has left
    [workerLoop]. *)
Lemma stop_join_returned (c : tid) (s s' : ThreadPool) (result : bool) :
  stop_inv s →
  stop_join c s = JoinReturned result s' →
  result = true ∧
  (∀ i w, m_worker_threads s !! i = Some w → w = LoopExited) ∧
  m_worker_threads s' = [] ∧
  stop_joining s' !! c = None ∧
  m_stopped s' = true ∧
  m_job_queue s' = m_job_queue s ∧
  m_pending_jobs s' = m_pending_jobs s.
Proof.
  intros [Hpre Hst] Hjoin. unfold stop_join in Hjoin.
  destruct (stop_joining s !! c) as [k|] eqn:Hc; [|discriminate].
  destruct (m_worker_threads s !! k) as [[]|] eqn:Hk; try discriminate.
  injection Hjoin as <- <-. simpl.
  split; [reflexivity|]. split; [|split; [reflexivity|split]].
  - intros i w Hi. apply lookup_ge_None in Hk.
    assert (i < length (m_worker_threads s)) as Hlt by (eapply lookup_lt_Some, Hi).
    rewrite (Hpre c k i Hc) in Hi by lia. congruence.
  - apply lookup_delete_eq.
  - split; [|split; reflexivity]. apply (Hst c). rewrite Hc. eauto.
Qed.

(** ** Workers of a Stopped pool *)

(** In a Stopped pool a worker step never takes a job: the queue stays as
    it is and no worker becomes a running one. *)
Lemma stopped_no_dequeue (id pick : nat) (s s' : ThreadPool) :
  m_stopped s = true →
  workerLoop_step id pick s = Some s' →
  m_stopped s' = true ∧
  m_job_queue s' = m_job_queue s ∧
  (∀ i job, m_worker_threads s' !! i = Some (RunningJob job) →
            m_worker_threads s !! i = Some (RunningJob job)).
Proof.
  intros Hst Hstep.
  apply workerLoop_step_cases in Hstep as [[Hw H]|(job & Hw & ->)].
  - apply workerLoop_fetch_cases in H
      as [[_ ->]|[(Hf & _)|(Hf & _)]]; [|congruence|congruence].
    simpl. split; [exact Hst|]. split; [reflexivity|].
    intros i job Hi. destruct (decide (i = id)) as [->|Hne].
    + rewrite list_lookup_insert_eq in Hi by (eapply lookup_lt_Some, Hw).
      discriminate.
    + rewrite list_lookup_insert_ne in Hi by congruence. exact Hi.
  - simpl. split; [exact Hst|]. split; [reflexivity|].
    intros i job' Hi. destruct (decide (i = id)) as [->|Hne].
    + rewrite list_lookup_insert_eq in Hi by (eapply lookup_lt_Some, Hw).
      discriminate.
    + rewrite list_lookup_insert_ne in Hi by congruence. exact Hi.
Qed.

(** A worker at the head of the loop of a Stopped pool leaves the loop,
    whatever the queue holds. *)
Lemma stopped_worker_exits (id pick : nat) (s : ThreadPool) :
  m_stopped s = true →
  m_worker_threads s !! id = Some AtLoopHead →
  workerLoop_step id pick s = Some (set_worker id LoopExited s (m_job_queue s)) ∧
  m_worker_threads (set_worker id LoopExited s (m_job_queue s)) !! id
  = Some LoopExited.
Proof.
  intros Hst Hw. unfold workerLoop_step, workerLoop_fetch. rewrite Hw, Hst.
  rewrite orb_true_r. simpl. split; [reflexivity|].
  apply list_lookup_insert_eq. eapply lookup_lt_Some, Hw.
Qed.

(** A job that has been dequeued is finished by the worker's next step,
    Stopped or not: the counter is decremented and the worker is back at
    the head of the loop. *)
Lemma running_job_finishes (id pick : nat) (job : Job) (s : ThreadPool) :
  m_worker_threads s !! id = Some (RunningJob job) →
  workerLoop_step id pick s = Some (workerLoop_finish id pick s) ∧
  m_worker_threads (workerLoop_finish id pick s) !! id = Some AtLoopHead ∧
  m_pending_jobs (workerLoop_finish id pick s) = to_ssize (m_pending_jobs s - 1) ∧
  m_job_queue (workerLoop_finish id pick s) = m_job_queue s.
Proof.
  intros Hw. unfold workerLoop_step. rewrite Hw. simpl.
  split; [reflexivity|]. split; [|split; reflexivity].
  apply list_lookup_insert_eq. eapply lookup_lt_Some, Hw.
Qed.

(** While a worker is still running a job (no step of that worker has
    happened), a thread inside [stop] stays inside it. *)
Lemma running_job_blocks_join_step
  (e : event) (s s' : ThreadPool) (c : tid) (id : nat) (job : Job) :
  stop_inv s →
  step e s = Some s' →
  not_worker id e = true →
  is_Some (stop_joining s !! c) →
  m_worker_threads s !! id = Some (RunningJob job) →
  is_Some (stop_joining s' !! c) ∧
  m_worker_threads s' !! id = Some (RunningJob job).
Proof.
  intros Hinv Hstep Hnw Hc Hw.
  destruct e as [j pick|n hw|c' cq|c'|c'|c'| |id' pick|id'|c']; simpl in Hstep.
  - injection Hstep as <-. simpl. split; [exact Hc|].
    apply notify_one_stable; [exact Hw | discriminate].
  - destruct (bool_decide (stop_joining s = ∅)) eqn:He; [|discriminate].
    apply bool_decide_eq_true in He. rewrite He, lookup_empty in Hc.
    destruct Hc as [? ?]. discriminate.
  - destruct (busy c' s); [discriminate|]. injection Hstep as <-.
    unfold stop_lock. rewrite (proj2 Hinv c Hc). simpl. split; assumption.
  - destruct (stop_join c' s) as [result t|t| |] eqn:Hj; try discriminate;
      injection Hstep as <-.
    + apply (stop_join_returned _ _ _ _ Hinv) in Hj as (_ & Hall & _).
      specialize (Hall id _ Hw). discriminate.
    + unfold stop_join in Hj.
      destruct (stop_joining s !! c') as [k|]; [|discriminate].
      destruct (m_worker_threads s !! k) as [[]|]; try discriminate.
      injection Hj as <-. simpl. split; [|exact Hw].
      destruct (decide (c' = c)) as [->|Hne].
      * rewrite lookup_insert_eq. eauto.
      * rewrite lookup_insert_ne by exact Hne. exact Hc.
  - destruct (busy c' s); [discriminate|]. injection Hstep as <-.
    unfold wait_enter. destruct (0 <? m_pending_jobs s)%Z; simpl; split; assumption.
  - destruct (bool_decide (c' ∈ counter_woken s)); [|discriminate].
    injection Hstep as <-. unfold wait_wake.
    destruct (m_pending_jobs s =? 0)%Z; simpl; split; assumption.
  - injection Hstep as <-. simpl. split; assumption.
  - simpl in Hnw. apply negb_true_iff, Nat.eqb_neq in Hnw.
    apply workerLoop_step_cases in Hstep as [[_ H]|(job' & _ & ->)].
    + apply workerLoop_fetch_cases in H
        as [[_ ->]|[(_ & _ & ->)|(_ & job' & rest & _ & ->)]]; simpl;
        (split; [exact Hc|]); rewrite list_lookup_insert_ne by exact Hnw;
        exact Hw.
    + simpl. split; [exact Hc|].
      rewrite list_lookup_insert_ne by exact Hnw. exact Hw.
  - unfold spurious_worker in Hstep.
    destruct (m_worker_threads s !! id') as [[]|] eqn:Hw'; try discriminate.
    injection Hstep as <-. simpl. split; [exact Hc|].
    rewrite list_lookup_insert_ne; [exact Hw | congruence].
  - unfold spurious_waiter in Hstep.
    destruct (bool_decide (c' ∈ m_counter_cv s)); [|discriminate].
    injection Hstep as <-. simpl. split; assumption.
Qed.

Lemma running_job_blocks_join
  (evs : list event) (s s' : ThreadPool) (c : tid) (id : nat) (job : Job) :
  stop_inv s →
  run evs s = Some s' →
  (∀ e, e ∈ evs → not_worker id e = true) →
  is_Some (stop_joining s !! c) →
  m_worker_threads s !! id = Some (RunningJob job) →
  is_Some (stop_joining s' !! c) ∧
  m_worker_threads s' !! id = Some (RunningJob job).
Proof.
  revert s. induction evs as [|e evs IH]; intros s Hinv Hrun Hev Hc Hw;
    simpl in Hrun.
  - injection Hrun as <-. split; assumption.
  - destruct (step e s) as [s1|] eqn:Hstep; [|discriminate].
    destruct (running_job_blocks_join_step e s s1 c id job) as [Hc1 Hw1];
      try assumption; [apply Hev; left|].
    apply (IH s1); try assumption.
    + eapply stop_inv_step; eassumption.
    + intros e' He'. apply Hev. right. exact He'.
Qed.

(** Without a [start] or a [clearQueue], a Stopped pool stays Stopped and
    its queue only grows at the tail, by the jobs submitted meanwhile. *)
Lemma stopped_keeps_queue_step (e : event) (s s' : ThreadPool) :
  step e s = Some s' → keeps_queue e = true → m_stopped s = true →
  m_stopped s' = true ∧ ∃ added, m_job_queue s' = m_job_queue s ++ added.
Proof.
  intros Hstep Hk Hst.
  assert (m_job_queue s = m_job_queue s ++ []) as Hnil by (rewrite app_nil_r; reflexivity).
  destruct e as [j pick|n hw|c' cq|c'|c'|c'| |id' pick|id'|c']; simpl in Hstep;
    try discriminate Hk.
  - injection Hstep as <-. simpl. split; [exact Hst|]. exists [j]. reflexivity.
  - destruct (busy c' s); [discriminate|]. injection Hstep as <-.
    unfold stop_lock. rewrite Hst. simpl. split; [exact Hst | exists []; exact Hnil].
  - unfold stop_join in Hstep.
    destruct (stop_joining s !! c') as [k|]; [|discriminate].
    destruct (m_worker_threads s !! k) as [[]|]; try discriminate;
      injection Hstep as <-; simpl; (split; [exact Hst | exists []; exact Hnil]).
  - destruct (busy c' s); [discriminate|]. injection Hstep as <-.
    unfold wait_enter. destruct (0 <? m_pending_jobs s)%Z; simpl;
      (split; [exact Hst | exists []; exact Hnil]).
  - destruct (bool_decide (c' ∈ counter_woken s)); [|discriminate].
    injection Hstep as <-. unfold wait_wake.
    destruct (m_pending_jobs s =? 0)%Z; simpl;
      (split; [exact Hst | exists []; exact Hnil]).
  - destruct (stopped_no_dequeue id' pick s s' Hst Hstep) as (H1 & H2 & _).
    split; [exact H1|]. exists []. rewrite H2. exact Hnil.
  - unfold spurious_worker in Hstep.
    destruct (m_worker_threads s !! id') as [[]|]; try discriminate.
    injection Hstep as <-. simpl. split; [exact Hst | exists []; exact Hnil].
  - unfold spurious_waiter in Hstep.
    destruct (bool_decide (c' ∈ m_counter_cv s)); [|discriminate].
    injection Hstep as <-. simpl. split; [exact Hst | exists []; exact Hnil].
Qed.

Lemma stopped_keeps_queue (evs : list event) (s s' : ThreadPool) :
  run evs s = Some s' →
  (∀ e, e ∈ evs → keeps_queue e = true) →
  m_stopped s = true →
  m_stopped s' = true ∧ ∃ added, m_job_queue s' = m_job_queue s ++ added.
Proof.
  revert s. induction evs as [|e evs IH]; intros s Hrun Hev Hst; simpl in Hrun.
  - injection Hrun as <-. split; [exact Hst|]. exists []. rewrite app_nil_r. reflexivity.
  - destruct (step e s) as [s1|] eqn:Hstep; [|discriminate].
    destruct (stopped_keeps_queue_step e s s1 Hstep) as (Hst1 & added1 & Hq1);
      [apply Hev; left | exact Hst |].
    destruct (IH s1 Hrun) as (Hst' & added & Hq'); [|exact Hst1|].
    + intros e' He'. apply Hev. right. exact He'.
    + split; [exact Hst'|]. exists (added1 ++ added).
      rewrite Hq', Hq1, app_assoc. reflexivity.
Qed.

(** ** Stopping *)

Lemma stop_lock_running (c : tid) (clear_queue : bool) (s : ThreadPool) :
  m_stopped s = false →
  let s0 := snd (stop_lock c clear_queue s) in
  fst (stop_lock c clear_queue s) = None ∧
  m_stopped s0 = true ∧
  m_job_queue s0 = (if clear_queue then [] else m_job_queue s) ∧
  m_pending_jobs s0 = m_pending_jobs s ∧
  stop_joining s0 !! c = Some 0 ∧
  blocked_workers (m_worker_threads s0) = 0 ∧
  (∀ i job, m_worker_threads s0 !! i = Some (RunningJob job) ↔
            m_worker_threads s !! i = Some (RunningJob job)).
Proof.
  intros Hst. unfold stop_lock. rewrite Hst. simpl.
  split; [reflexivity|]. split; [reflexivity|]. split; [reflexivity|].
  split; [reflexivity|]. split; [apply lookup_insert_eq|].
  split; [apply notify_all_no_blocked|]. intros i job. apply notify_all_running.
Qed.

(** C2.  When [stop] finds the pool Running it sets it Stopped without
    touching the jobs that workers are executing.  From then on, whatever
    the interleaving: while the pool is Stopped no worker step takes a job
    from the queue or starts one, and the pool is Stopped for as long as
    the caller is inside [stop]; a worker that is executing a job finishes
    it with its next step; the caller stays inside [stop] for as long as a
    worker that is executing a job has not made that step; and when the
    join loop is left, with result [true], every worker thread has left
    [workerLoop] and the set of worker threads is cleared. *)
Theorem stop_waits_for_running_jobs
  (s : ThreadPool) (c : tid) (clear_queue : bool) :
  reachable s →
  m_stopped s = false →
  let s0 := snd (stop_lock c clear_queue s) in
  m_stopped s0 = true ∧
  stop_joining s0 !! c = Some 0 ∧
  (∀ i job, m_worker_threads s0 !! i = Some (RunningJob job) ↔
            m_worker_threads s !! i = Some (RunningJob job)) ∧
  ∀ evs t, run evs s0 = Some t →
    (m_stopped t = true →
     ∀ id pick t', workerLoop_step id pick t = Some t' →
       m_stopped t' = true ∧
       m_job_queue t' = m_job_queue t ∧
       ∀ i job, m_worker_threads t' !! i = Some (RunningJob job) →
                m_worker_threads t !! i = Some (RunningJob job)) ∧
    (is_Some (stop_joining t !! c) → m_stopped t = true) ∧
    (∀ id pick job, m_worker_threads t !! id = Some (RunningJob job) →
       workerLoop_step id pick t = Some (workerLoop_finish id pick t) ∧
       m_worker_threads (workerLoop_finish id pick t) !! id = Some AtLoopHead) ∧
    (∀ id job evs' t',
       is_Some (stop_joining t !! c) →
       m_worker_threads t !! id = Some (RunningJob job) →
       (∀ e, e ∈ evs' → not_worker id e = true) →
       run evs' t = Some t' →
       is_Some (stop_joining t' !! c) ∧
       m_worker_threads t' !! id = Some (RunningJob job)) ∧
    (∀ result t', stop_join c t = JoinReturned result t' →
       result = true ∧
       (∀ i w, m_worker_threads t !! i = Some w → w = LoopExited) ∧
       m_worker_threads t' = []).
Proof.
  intros Hreach Hst s0.
  destruct (stop_lock_running c clear_queue s Hst) as (_ & H1 & _ & _ & H2 & _ & H3).
  split; [exact H1|]. split; [exact H2|]. split; [exact H3|].
  intros evs t Hrun.
  assert (stop_inv t) as Hinv.
  { eapply stop_inv_run; [exact Hrun|].
    apply stop_lock_inv, reachable_stop_inv, Hreach. }
  split; [intros Ht id pick t'; apply stopped_no_dequeue, Ht|].
  split; [apply (proj2 Hinv)|].
  split.
  { intros id pick job Hw.
    destruct (running_job_finishes id pick job t Hw) as (Ha & Hb & _).
    split; assumption. }
  split.
  { intros id job evs' t' Hc Hw Hev Hrun'.
    eapply running_job_blocks_join; eassumption. }
  intros result t' Hj.
  destruct (stop_join_returned c t t' result Hinv Hj) as (Ha & Hb & Hc & _).
  split; [exact Ha|]. split; [exact Hb | exact Hc].
Qed.

Lemma job_in_flight_reachable : reachable job_in_flight.
Proof. exists true, 2, 0, to_job_in_flight. vm_compute. reflexivity. Qed.

Lemma stop_waits_for_running_jobs_witness :
  run to_job_in_flight fresh_pool = Some job_in_flight ∧
  m_stopped job_in_flight = false ∧
  m_job_queue (snd (stop_lock 0 false job_in_flight)) = [10] ∧
  m_stopped (snd (stop_lock 0 false job_in_flight)) = true ∧
  m_worker_threads (snd (stop_lock 0 false job_in_flight)) !! 0
  = Some (RunningJob 9) ∧
  (∃ t, workerLoop_step 1 0 (snd (stop_lock 0 false job_in_flight)) = Some t ∧
        m_job_queue t = [10] ∧
        m_worker_threads t !! 1 = Some LoopExited) ∧
  (∃ t, run [EvWorker 1 0; EvAddJob 11 0] (snd (stop_lock 0 false job_in_flight))
        = Some t ∧
        is_Some (stop_joining t !! 0) ∧
        m_worker_threads t !! 0 = Some (RunningJob 9)) ∧
  (workerLoop_step 0 0 (snd (stop_lock 0 false job_in_flight))
   = Some (workerLoop_finish 0 0 (snd (stop_lock 0 false job_in_flight))) ∧
   m_worker_threads (workerLoop_finish 0 0 (snd (stop_lock 0 false job_in_flight)))
   !! 0 = Some AtLoopHead) ∧
  (∃ t t', run drain_in_flight (snd (stop_lock 0 false job_in_flight)) = Some t ∧
           stop_join 0 t = JoinReturned true t' ∧
           (∀ i w, m_worker_threads t !! i = Some w → w = LoopExited) ∧
           m_worker_threads t' = []).
Proof.
  split; [vm_compute; reflexivity|]. split; [reflexivity|].
  split; [reflexivity|].
  destruct (stop_waits_for_running_jobs job_in_flight 0 false
              job_in_flight_reachable eq_refl) as (Hst & _ & Hkeep & Hafter).
  split; [exact Hst|].
  split; [apply (proj2 (Hkeep 0 9)); reflexivity|].
  destruct (Hafter [] _ eq_refl) as (Hnodeq & _ & Hfinish & Hblocks & _).
  split.
  { eexists. split; [vm_compute; reflexivity|].
    split; [|vm_compute; reflexivity].
    refine (proj1 (proj2 (Hnodeq Hst 1 0 _ _))). vm_compute. reflexivity. }
  split.
  { eexists. split; [vm_compute; reflexivity|].
    refine (Hblocks 0 9 [EvWorker 1 0; EvAddJob 11 0] _ _ eq_refl _ _).
    - vm_compute. eauto.
    - intros e He. repeat (apply elem_of_cons in He as [->|He]; [reflexivity|]).
      apply elem_of_nil in He. contradiction.
    - vm_compute. reflexivity. }
  split; [apply (Hfinish 0 0 9); reflexivity|].
  assert (∃ t, run drain_in_flight (snd (stop_lock 0 false job_in_flight)) = Some t)
    as [t Hrun] by (eexists; vm_compute; reflexivity).
  assert (∃ t', stop_join 0 t = JoinReturned true t') as [t' Hj].
  { vm_compute in Hrun. injection Hrun as <-. eexists. vm_compute. reflexivity. }
  destruct (Hafter drain_in_flight t Hrun) as (_ & _ & _ & _ & Hret).
  destruct (Hret true t' Hj) as (_ & Hall & Hws).
  exists t, t'. split; [exact Hrun|]. split; [exact Hj|]. split; assumption.
Defined.

(** A worker at the head of the loop of a Running pool with a job queued
    takes the job at the head of the queue. *)
Lemma running_worker_fetches (id pick : nat) (job : Job) (rest : list Job)
  (s : ThreadPool) :
  m_stopped s = false →
  m_job_queue s = job :: rest →
  m_worker_threads s !! id = Some AtLoopHead →
  workerLoop_step id pick s = Some (set_worker id (RunningJob job) s rest).
Proof.
  intros Hst Hq Hw. unfold workerLoop_step, workerLoop_fetch.
  rewrite Hw, Hst, Hq. reflexivity.
Qed.

(** C10.  [stop(false)] on a Running pool changes the state flag and wakes
    the workers but leaves queue and counter as they are, and so does every
    move of its join loop.  Afterwards, until a [start] or a [clearQueue],
    the pool stays Stopped and the retained jobs stay at the front of the
    queue: a worker at the head of its loop leaves the loop without taking a
    job, although the queue may hold some.  A later [start] succeeds, and
    then a worker at the head of its loop takes the first retained job. *)
Theorem stop_without_clear_keeps_queue (s : ThreadPool) (c : tid) :
  m_stopped s = false →
  let s0 := snd (stop_lock c false s) in
  m_stopped s0 = true ∧
  m_job_queue s0 = m_job_queue s ∧
  m_pending_jobs s0 = m_pending_jobs s ∧
  ∀ evs t, run evs s0 = Some t → (∀ e, e ∈ evs → keeps_queue e = true) →
    m_stopped t = true ∧
    (∃ added, m_job_queue t = m_job_queue s ++ added) ∧
    (∀ t', stop_join c t = JoinAdvanced t' ∨
           (∃ result, stop_join c t = JoinReturned result t') →
           m_job_queue t' = m_job_queue t ∧
           m_pending_jobs t' = m_pending_jobs t) ∧
    (∀ id pick, m_worker_threads t !! id = Some AtLoopHead →
       workerLoop_step id pick t
       = Some (set_worker id LoopExited t (m_job_queue t))) ∧
    (∀ worker_count hw id pick job rest,
       m_job_queue s = job :: rest →
       let u := snd (start worker_count hw t) in
       fst (start worker_count hw t) = true ∧
       (m_worker_threads u !! id = Some AtLoopHead →
        ∃ u', workerLoop_step id pick u = Some u' ∧
              m_worker_threads u' !! id = Some (RunningJob job) ∧
              m_job_queue t = job :: m_job_queue u')).
Proof.
  intros Hst s0.
  destruct (stop_lock_running c false s Hst) as (_ & H1 & H2 & H3 & _).
  split; [exact H1|]. split; [exact H2|]. split; [exact H3|].
  intros evs t Hrun Hev.
  destruct (stopped_keeps_queue evs s0 t Hrun Hev H1) as (Ht & added & Hq).
  fold s0 in H2. rewrite H2 in Hq.
  split; [exact Ht|]. split; [exists added; exact Hq|]. split; [|split].
  - intros t' Hj. unfold stop_join in Hj.
    destruct (stop_joining t !! c) as [k|];
      [|destruct Hj as [Hj|[r Hj]]; discriminate].
    destruct (m_worker_threads t !! k) as [[]|];
      destruct Hj as [Hj|[r Hj]]; try discriminate;
      simplify_eq; split; reflexivity.
  - intros id pick Hw. apply (stopped_worker_exits id pick t Ht Hw).
  - intros worker_count hw id pick job rest Hs u.
    assert (start worker_count hw t
            = (true, snd (start worker_count hw t))) as Hstart
      by (unfold start; rewrite Ht; reflexivity).
    split; [rewrite Hstart; reflexivity|].
    intros Hw. rewrite Hs in Hq. simpl in Hq.
    exists (set_worker id (RunningJob job) u (rest ++ added)).
    split; [|split].
    + apply running_worker_fetches; [| |exact Hw].
      * subst u. unfold start. rewrite Ht. reflexivity.
      * subst u. unfold start. rewrite Ht. simpl. exact Hq.
    + simpl. apply list_lookup_insert_eq. eapply lookup_lt_Some, Hw.
    + simpl. exact Hq.
Qed.

Lemma stop_without_clear_keeps_queue_witness :
  let s := addJob 9 0 fresh_pool in
  m_stopped s = false ∧
  m_job_queue (snd (stop_lock 0 false s)) = [9] ∧
  m_pending_jobs (snd (stop_lock 0 false s)) = 1%Z.
Proof.
  intros s. split; [reflexivity|].
  destruct (stop_without_clear_keeps_queue s 0 eq_refl) as (_ & Hq & Hp & _).
  split; [exact Hq | exact Hp].
Defined.

(** ** Several waiters *)

(** C8, as stated, fails here.  With threads 1 and 2 blocked in [wait] and
    the last job running, the worker's final step brings the counter to 0
    and wakes one thread only:
    the other one is still blocked on [m_counter_cv], whichever thread the
    notification picks. *)
Lemma two_waiters_one_released :
  run [EvAddJob 7 0; EvWorker 0 0; EvWait 1; EvWait 2] (ThreadPool_ctor true 1 0)
  = Some two_waiters ∧
  m_pending_jobs two_waiters = 1%Z ∧
  m_counter_cv two_waiters = [1; 2] ∧
  step (EvWorker 0 0) two_waiters = Some (workerLoop_finish 0 0 two_waiters) ∧
  m_pending_jobs (workerLoop_finish 0 0 two_waiters) = 0%Z ∧
  m_counter_cv (workerLoop_finish 0 0 two_waiters) = [2] ∧
  counter_woken (workerLoop_finish 0 0 two_waiters) = [1] ∧
  m_counter_cv (workerLoop_finish 0 1 two_waiters) = [1] ∧
  counter_woken (workerLoop_finish 0 1 two_waiters) = [2] ∧
  step (EvWaitWake 2) (workerLoop_finish 0 0 two_waiters) = None ∧
  step (EvWaitWake 1) (workerLoop_finish 0 1 two_waiters) = None.
Proof. vm_compute. repeat split; reflexivity. Qed.

(** C8, as the code has it.  When threads are blocked in [wait], the waiter
    flag is set and a worker's final step brings the counter from 1 to 0,
    that step wakes exactly one of the blocked threads: it is taken out of
    the wait set of [m_counter_cv], every other blocked thread stays in it,
    and the woken thread returns from [wait] at its next step, which leaves
    the remaining threads blocked. *)
Theorem zero_pending_releases_one_waiter
  (s : ThreadPool) (id pick : nat) (job : Job) :
  m_worker_threads s !! id = Some (RunningJob job) →
  m_pending_jobs s = 1%Z →
  m_waiting s = true →
  m_counter_cv s ≠ [] →
  let s' := workerLoop_finish id pick s in
  workerLoop_step id pick s = Some s' ∧
  m_pending_jobs s' = 0%Z ∧
  ∃ i c,
    m_counter_cv s !! i = Some c ∧
    m_counter_cv s' = delete i (m_counter_cv s) ∧
    S (length (m_counter_cv s')) = length (m_counter_cv s) ∧
    counter_woken s' = counter_woken s ++ [c] ∧
    step (EvWaitWake c) s' = Some (snd (wait_wake c s')) ∧
    fst (wait_wake c s') = true ∧
    m_counter_cv (snd (wait_wake c s')) = delete i (m_counter_cv s).
Proof.
  intros Hw Hp Hwait Hne s'.
  split; [apply (running_job_finishes id pick job s Hw)|].
  assert (m_pending_jobs s' = 0%Z) as Hp' by (subst s'; simpl; rewrite Hp; reflexivity).
  split; [exact Hp'|].
  destruct (counter_notify_one_spec pick (m_counter_cv s) (counter_woken s) Hne)
    as (i & c & Hi & Hn).
  assert (m_counter_cv s' = delete i (m_counter_cv s)
          ∧ counter_woken s' = counter_woken s ++ [c]) as [Hb Hk].
  { subst s'. unfold workerLoop_finish. simpl. rewrite Hp, Hwait. simpl.
    change (to_ssize (1 - 1) =? 0)%Z with true. simpl. rewrite Hn. split; reflexivity. }
  clearbody s'. exists i, c. split; [exact Hi|]. split; [exact Hb|].
  split.
  { rewrite Hb, length_delete by (rewrite Hi; eauto).
    apply lookup_lt_Some in Hi. lia. }
  split; [exact Hk|].
  split.
  { simpl. rewrite bool_decide_eq_true_2; [reflexivity|].
    rewrite Hk. apply elem_of_app. right. apply list_elem_of_singleton. reflexivity. }
  unfold wait_wake. rewrite Hp'. simpl. split; [reflexivity | exact Hb].
Qed.

Lemma zero_pending_releases_one_waiter_witness :
  m_worker_threads two_waiters !! 0 = Some (RunningJob 7) ∧
  m_pending_jobs two_waiters = 1%Z ∧
  m_waiting two_waiters = true ∧
  m_counter_cv two_waiters ≠ [] ∧
  m_pending_jobs (workerLoop_finish 0 0 two_waiters) = 0%Z.
Proof.
  assert (m_counter_cv two_waiters ≠ []) as Hne by discriminate.
  split; [reflexivity|]. split; [reflexivity|]. split; [reflexivity|].
  split; [exact Hne|].
  destruct (zero_pending_releases_one_waiter two_waiters 0 0 7
              eq_refl eq_refl eq_refl Hne) as (_ & Hp & _).
  exact Hp.
Defined.

(** ** Accounting *)

Lemma executing_cons (w : worker_pc) (ws : list worker_pc) :
  executing (w :: ws) = (if is_running w then 1 else 0) + executing ws.
Proof.
  unfold executing. rewrite filter_cons.
  destruct (decide (is_running w = true)) as [->|Hw]; [reflexivity|].
  destruct (is_running w); [congruence | reflexivity].
Qed.

Lemma executing_insert (ws : list worker_pc) (id : nat) (w0 w : worker_pc) :
  ws !! id = Some w0 →
  executing (<[id := w]> ws) + (if is_running w0 then 1 else 0)
  = executing ws + (if is_running w then 1 else 0).
Proof.
  revert id. induction ws as [|x ws IH]; intros [|id] Hid; simplify_eq/=.
  - rewrite !executing_cons. lia.
  - rewrite !executing_cons. specialize (IH id Hid). lia.
Qed.

Lemma executing_notify_one (pick : nat) (ws : list worker_pc) :
  executing (notify_one pick ws) = executing ws.
Proof.
  destruct (notify_one_spec pick ws) as [[_ ->]|(i & Hi & ->)]; [reflexivity|].
  pose proof (executing_insert ws i _ AtLoopHead Hi) as H. simpl in H. lia.
Qed.

Lemma executing_notify_all (ws : list worker_pc) :
  executing (notify_all ws) = executing ws.
Proof.
  induction ws as [|w ws IH]; [reflexivity|].
  change (notify_all (w :: ws)) with (wake w :: notify_all ws).
  rewrite !executing_cons, IH. destruct w; reflexivity.
Qed.

Lemma executing_spawn (ws : list worker_pc) (n : nat) :
  executing (ws ++ replicate n AtLoopHead) = executing ws.
Proof.
  induction ws as [|w ws IH]; simpl.
  - induction n as [|n IHn]; [reflexivity|].
    simpl. rewrite executing_cons. exact IHn.
  - rewrite !executing_cons, IH. reflexivity.
Qed.

Lemma executing_all_exited (ws : list worker_pc) :
  (∀ i w, ws !! i = Some w → w = LoopExited) → executing ws = 0.
Proof.
  induction ws as [|w ws IH]; intros H; [reflexivity|].
  rewrite executing_cons, IH by (intros i x Hi; apply (H (S i) x Hi)).
  rewrite (H 0 w eq_refl). reflexivity.
Qed.

(** Every transition other than [stop(true)] keeps pending = queued +
    executing, as long as the counter does not overflow. *)
Lemma accounting_step (e : event) (s s' : ThreadPool) :
  step e s = Some s' →
  stop_inv s →
  accounting s →
  (m_pending_jobs s < SSIZE_MAX)%Z →
  (∀ c, e ≠ EvStop c true) →
  accounting s'.
Proof.
  unfold accounting. intros Hstep Hinv Hacc Hmax Hne.
  assert (∀ z, (0 ≤ z ≤ m_pending_jobs s + 1)%Z → to_ssize z = z) as Hwrap
    by (intros z Hz; apply to_ssize_in_range; unfold SSIZE_MIN, SSIZE_MAX in *; lia).
  destruct e as [j pick|n hw|c cq|c|c|c| |id pick|id|c]; simpl in Hstep.
  - injection Hstep as <-. simpl.
    rewrite executing_notify_one, length_app, Hwrap by lia. simpl. lia.
  - destruct (bool_decide (stop_joining s = ∅)); [|discriminate].
    injection Hstep as <-. unfold start.
    destruct (m_stopped s); simpl; [|exact Hacc].
    rewrite executing_spawn. exact Hacc.
  - destruct (busy c s); [discriminate|]. injection Hstep as <-.
    destruct cq; [destruct (Hne c); reflexivity|].
    unfold stop_lock. destruct (m_stopped s); simpl; [exact Hacc|].
    rewrite executing_notify_all. exact Hacc.
  - destruct (stop_join c s) as [result t|t| |] eqn:Hj; try discriminate;
      injection Hstep as <-.
    + destruct (stop_join_returned c s t result Hinv Hj)
        as (_ & Hall & -> & _ & _ & -> & ->).
      rewrite (executing_all_exited _ Hall) in Hacc. exact Hacc.
    + unfold stop_join in Hj.
      destruct (stop_joining s !! c) as [k|]; [|discriminate].
      destruct (m_worker_threads s !! k) as [[]|]; try discriminate.
      injection Hj as <-. exact Hacc.
  - destruct (busy c s); [discriminate|]. injection Hstep as <-.
    unfold wait_enter. destruct (0 <? m_pending_jobs s)%Z; exact Hacc.
  - destruct (bool_decide (c ∈ counter_woken s)); [|discriminate].
    injection Hstep as <-. unfold wait_wake.
    destruct (m_pending_jobs s =? 0)%Z; exact Hacc.
  - injection Hstep as <-. simpl. rewrite Hwrap by lia. lia.
  - apply workerLoop_step_cases in Hstep as [[Hw H]|(job & Hw & ->)].
    + apply workerLoop_fetch_cases in H
        as [[_ ->]|[(_ & _ & ->)|(_ & job & rest & Hq & ->)]]; simpl.
      * pose proof (executing_insert _ id _ LoopExited Hw) as H. simpl in H. lia.
      * pose proof (executing_insert _ id _ InManagementWait Hw) as H.
        simpl in H. lia.
      * pose proof (executing_insert _ id _ (RunningJob job) Hw) as H.
        simpl in H. rewrite Hq in Hacc. simpl in Hacc. lia.
    + simpl. pose proof (executing_insert _ id _ AtLoopHead Hw) as H.
      simpl in H. rewrite Hwrap by lia. lia.
  - unfold spurious_worker in Hstep.
    destruct (m_worker_threads s !! id) as [[]|] eqn:Hw; try discriminate.
    injection Hstep as <-. simpl.
    pose proof (executing_insert _ id _ AtLoopHead Hw) as H. simpl in H. lia.
  - unfold spurious_waiter in Hstep.
    destruct (bool_decide (c ∈ m_counter_cv s)); [|discriminate].
    injection Hstep as <-. exact Hacc.
Qed.

(** Every transition, [stop(true)] included, keeps the counter at or above
    queued + executing, as long as the counter does not overflow. *)
Lemma counter_covers_jobs_step (e : event) (s s' : ThreadPool) :
  step e s = Some s' →
  counter_covers_jobs s →
  (m_pending_jobs s < SSIZE_MAX)%Z →
  counter_covers_jobs s'.
Proof.
  unfold counter_covers_jobs. intros Hstep Hcov Hmax.
  assert (∀ z, (0 ≤ z ≤ m_pending_jobs s + 1)%Z → to_ssize z = z) as Hwrap
    by (intros z Hz; apply to_ssize_in_range; unfold SSIZE_MIN, SSIZE_MAX in *; lia).
  destruct e as [j pick|n hw|c cq|c|c|c| |id pick|id|c]; simpl in Hstep.
  - injection Hstep as <-. simpl.
    rewrite executing_notify_one, length_app, Hwrap by lia. simpl. lia.
  - destruct (bool_decide (stop_joining s = ∅)); [|discriminate].
    injection Hstep as <-. unfold start.
    destruct (m_stopped s); simpl; [|exact Hcov].
    rewrite executing_spawn. exact Hcov.
  - destruct (busy c s); [discriminate|]. injection Hstep as <-.
    unfold stop_lock. destruct (m_stopped s); simpl; [exact Hcov|].
    rewrite executing_notify_all. destruct cq; simpl; lia.
  - unfold stop_join in Hstep.
    destruct (stop_joining s !! c) as [k|]; [|discriminate].
    destruct (m_worker_threads s !! k) as [[]|]; try discriminate;
      injection Hstep as <-; simpl; [exact Hcov|].
    change (executing []) with 0. lia.
  - destruct (busy c s); [discriminate|]. injection Hstep as <-.
    unfold wait_enter. destruct (0 <? m_pending_jobs s)%Z; exact Hcov.
  - destruct (bool_decide (c ∈ counter_woken s)); [|discriminate].
    injection Hstep as <-. unfold wait_wake.
    destruct (m_pending_jobs s =? 0)%Z; exact Hcov.
  - injection Hstep as <-. simpl. rewrite Hwrap by lia. lia.
  - apply workerLoop_step_cases in Hstep as [[Hw H]|(job & Hw & ->)].
    + apply workerLoop_fetch_cases in H
        as [[_ ->]|[(_ & _ & ->)|(_ & job & rest & Hq & ->)]]; simpl.
      * pose proof (executing_insert _ id _ LoopExited Hw) as H. simpl in H. lia.
      * pose proof (executing_insert _ id _ InManagementWait Hw) as H.
        simpl in H. lia.
      * pose proof (executing_insert _ id _ (RunningJob job) Hw) as H.
        simpl in H. rewrite Hq in Hcov. simpl in Hcov. lia.
    + simpl. pose proof (executing_insert _ id _ AtLoopHead Hw) as H.
      simpl in H. rewrite Hwrap by lia. lia.
  - unfold spurious_worker in Hstep.
    destruct (m_worker_threads s !! id) as [[]|] eqn:Hw; try discriminate.
    injection Hstep as <-. simpl.
    pose proof (executing_insert _ id _ AtLoopHead Hw) as H. simpl in H. lia.
  - unfold spurious_waiter in Hstep.
    destruct (bool_decide (c ∈ m_counter_cv s)); [|discriminate].
    injection Hstep as <-. exact Hcov.
Qed.

Lemma counter_covers_jobs_ctor (auto_start : bool) (worker_count hw : nat) :
  counter_covers_jobs (ThreadPool_ctor auto_start worker_count hw).
Proof.
  unfold counter_covers_jobs, ThreadPool_ctor. destruct auto_start; simpl.
  - change (replicate (if worker_count =? 0 then hw else worker_count) AtLoopHead)
      with ([] ++ replicate (if worker_count =? 0 then hw else worker_count)
                    AtLoopHead).
    rewrite executing_spawn. reflexivity.
  - reflexivity.
Qed.

(** [stop(true)] on a Running pool with jobs queued empties the queue and
    leaves the counter: the accounting no longer holds. *)
Lemma stop_clear_breaks_accounting (c : tid) (s : ThreadPool) :
  m_stopped s = false → m_job_queue s ≠ [] → accounting s →
  ¬ accounting (snd (stop_lock c true s)).
Proof.
  unfold accounting, stop_lock. intros -> Hq Hacc. simpl.
  rewrite executing_notify_all, Hacc.
  destruct (m_job_queue s); [contradiction | simpl; lia].
Qed.

(** C1, at the input where the code departs from it.  A job is submitted to
    a pool that is then started and stopped with [clear_queue = true] before
    the worker has taken the job: the job is discarded with the queue, the
    worker leaves its loop and is joined.  The counter still counts the
    discarded job: [pendingJobs] is 1 while the queue is empty and no worker
    exists, and [runningJobs] answers 1.  Right before the [stop] the
    accounting held. *)
Theorem stop_clear_leaves_counter :
  run stopped_with_job_queued (ThreadPool_ctor false 0 0) = Some after_stop_clear ∧
  (∃ before,
     run [EvAddJob 7 0; EvStart 1 0] (ThreadPool_ctor false 0 0) = Some before ∧
     accounting before ∧
     ¬ accounting (snd (stop_lock 0 true before))) ∧
  pendingJobs after_stop_clear = 1%Z ∧
  queuedJobs after_stop_clear = 0%Z ∧
  executing (m_worker_threads after_stop_clear) = 0 ∧
  runningJobs after_stop_clear = 1%Z ∧
  ¬ accounting after_stop_clear ∧
  fst (wait_enter 1 after_stop_clear) = false.
Proof.
  split; [vm_compute; reflexivity|].
  split.
  { eexists. split; [reflexivity|].
    split; [vm_compute; reflexivity|].
    apply stop_clear_breaks_accounting; [reflexivity | discriminate |].
    vm_compute. reflexivity. }
  repeat split; try (vm_compute; reflexivity).
  vm_compute. discriminate.
Qed.

(** * Further properties *)

(** ** Runs *)

Lemma run_app (evs1 evs2 : list event) (s : ThreadPool) :
  run (evs1 ++ evs2) s = run evs1 s ≫= run evs2.
Proof.
  revert s. induction evs1 as [|e evs1 IH]; intros s; simpl; [reflexivity|].
  destruct (step e s); [apply IH | reflexivity].
Qed.

Lemma submitted_app (evs1 evs2 : list event) :
  submitted (evs1 ++ evs2) = submitted evs1 ++ submitted evs2.
Proof.
  induction evs1 as [|e evs1 IH]; simpl; [reflexivity|].
  rewrite IH, app_assoc. reflexivity.
Qed.

(** ** The counter along a run *)

(** A transition raises the counter by one when it is a submission and
    never otherwise, and keeps it at or above queued + executing. *)
Lemma counter_step_bound (e : event) (s s' : ThreadPool) :
  step e s = Some s' →
  counter_covers_jobs s →
  (m_pending_jobs s < SSIZE_MAX)%Z →
  counter_covers_jobs s' ∧
  (m_pending_jobs s' ≤ m_pending_jobs s + Z.of_nat (length (submission e)))%Z.
Proof.
  intros Hstep Hcov Hmax.
  split; [eapply counter_covers_jobs_step; eassumption|].
  unfold counter_covers_jobs in Hcov.
  assert (∀ z, (0 ≤ z ≤ m_pending_jobs s + 1)%Z → to_ssize z = z) as Hwrap
    by (intros z Hz; apply to_ssize_in_range; unfold SSIZE_MIN, SSIZE_MAX in *; lia).
  destruct e as [j pick|n hw|c cq|c|c|c| |id pick|id|c]; simpl in Hstep; simpl.
  - injection Hstep as <-. simpl. rewrite Hwrap by lia. lia.
  - destruct (bool_decide (stop_joining s = ∅)); [|discriminate].
    injection Hstep as <-. unfold start. destruct (m_stopped s); simpl; lia.
  - destruct (busy c s); [discriminate|]. injection Hstep as <-.
    unfold stop_lock. destruct (m_stopped s); simpl; lia.
  - unfold stop_join in Hstep.
    destruct (stop_joining s !! c) as [k|]; [|discriminate].
    destruct (m_worker_threads s !! k) as [[]|]; try discriminate;
      injection Hstep as <-; simpl; lia.
  - destruct (busy c s); [discriminate|]. injection Hstep as <-.
    unfold wait_enter. destruct (0 <? m_pending_jobs s)%Z; simpl; lia.
  - destruct (bool_decide (c ∈ counter_woken s)); [|discriminate].
    injection Hstep as <-. unfold wait_wake.
    destruct (m_pending_jobs s =? 0)%Z; simpl; lia.
  - injection Hstep as <-. simpl. rewrite Hwrap by lia. lia.
  - apply workerLoop_step_cases in Hstep as [[Hw H]|(job & Hw & ->)].
    + apply workerLoop_fetch_cases in H
        as [[_ ->]|[(_ & _ & ->)|(_ & job & rest & Hq & ->)]]; simpl; lia.
    + simpl. pose proof (executing_insert _ id _ AtLoopHead Hw) as H.
      simpl in H. rewrite Hwrap by lia. lia.
  - unfold spurious_worker in Hstep.
    destruct (m_worker_threads s !! id) as [[]|]; try discriminate.
    injection Hstep as <-. simpl. lia.
  - unfold spurious_waiter in Hstep.
    destruct (bool_decide (c ∈ m_counter_cv s)); [|discriminate].
    injection Hstep as <-. simpl. lia.
Qed.

(** Induction along a run whose number of submissions keeps the counter
    below [SSIZE_MAX]: a property kept by the permitted transitions of a
    pool whose counter is in range holds at the end of the run. *)
Lemma run_bounded (P : ThreadPool → Prop) (permitted : event → bool) :
  (∀ e s s', permitted e = true → step e s = Some s' →
             counter_covers_jobs s → (m_pending_jobs s < SSIZE_MAX)%Z →
             P s → P s') →
  ∀ evs s s' (k : Z),
    (∀ e, e ∈ evs → permitted e = true) →
    counter_covers_jobs s → P s →
    (m_pending_jobs s ≤ k)%Z →
    (k + Z.of_nat (length (submitted evs)) < SSIZE_MAX)%Z →
    run evs s = Some s' →
    P s' ∧ counter_covers_jobs s' ∧
    (m_pending_jobs s' ≤ k + Z.of_nat (length (submitted evs)))%Z.
Proof.
  intros HP evs. induction evs as [|e evs IH];
    intros s s' k Hev Hcov Hs Hk Hmax Hrun; simpl in Hrun.
  - injection Hrun as <-. simpl. split; [exact Hs|]. split; [exact Hcov | lia].
  - destruct (step e s) as [s1|] eqn:Hstep; [|discriminate].
    simpl in Hmax. rewrite length_app in Hmax.
    assert ((m_pending_jobs s < SSIZE_MAX)%Z) as Hlt by lia.
    destruct (counter_step_bound e s s1 Hstep Hcov Hlt) as [Hcov1 Hgrow].
    destruct (IH s1 s' (k + Z.of_nat (length (submission e)))%Z)
      as (HP' & Hcov' & Hk'); try assumption.
    + intros e' He'. apply Hev. right. exact He'.
    + apply (HP e s s1); try assumption. apply Hev. left.
    + lia.
    + lia.
    + split; [exact HP'|]. split; [exact Hcov'|].
      simpl. rewrite length_app. lia.
Qed.

Lemma accounting_ctor (auto_start : bool) (worker_count hw : nat) :
  accounting (ThreadPool_ctor auto_start worker_count hw).
Proof.
  unfold accounting, ThreadPool_ctor. destruct auto_start; simpl.
  - change (replicate (if worker_count =? 0 then hw else worker_count) AtLoopHead)
      with ([] ++ replicate (if worker_count =? 0 then hw else worker_count)
                    AtLoopHead).
    rewrite executing_spawn. reflexivity.
  - reflexivity.
Qed.

Lemma pending_jobs_ctor (auto_start : bool) (worker_count hw : nat) :
  m_pending_jobs (ThreadPool_ctor auto_start worker_count hw) = 0%Z.
Proof. unfold ThreadPool_ctor. destruct auto_start; reflexivity. Qed.

(** X1.  In every state reached from construction by a run with fewer than
    [SSIZE_MAX] submissions, the counter is at least queued + executing,
    hence not negative, and at most the number of submissions; the three
    queries do not wrap: [pendingJobs] is the counter, [runningJobs] is
    [pendingJobs - queuedJobs] and is at least the number of jobs being
    executed. *)
Theorem queries_within_bounds
  (auto_start : bool) (worker_count hw : nat) (evs : list event) (s : ThreadPool) :
  run evs (ThreadPool_ctor auto_start worker_count hw) = Some s →
  (Z.of_nat (length (submitted evs)) < SSIZE_MAX)%Z →
  (0 ≤ queuedJobs s + Z.of_nat (executing (m_worker_threads s))
     ≤ m_pending_jobs s)%Z ∧
  (m_pending_jobs s ≤ Z.of_nat (length (submitted evs)))%Z ∧
  pendingJobs s = m_pending_jobs s ∧
  runningJobs s = (pendingJobs s - queuedJobs s)%Z ∧
  (Z.of_nat (executing (m_worker_threads s)) ≤ runningJobs s)%Z.
Proof.
  intros Hrun Hmax.
  destruct (run_bounded (λ _, True) (λ _, true) (λ _ _ _ _ _ _ _ _, I)
              evs _ s 0%Z (λ _ _, eq_refl)
              (counter_covers_jobs_ctor auto_start worker_count hw) I)
    as (_ & Hcov & Hle); [rewrite pending_jobs_ctor; lia | lia | exact Hrun |].
  unfold counter_covers_jobs in Hcov. unfold pendingJobs, runningJobs, queuedJobs.
  rewrite !to_size_in_range by lia. lia.
Qed.

Lemma queries_within_bounds_witness :
  run [EvAddJob 3 0; EvAddJob 4 0; EvWorker 0 0] (ThreadPool_ctor true 1 0)
  = Some one_running_one_queued ∧
  runningJobs one_running_one_queued
  = (pendingJobs one_running_one_queued - queuedJobs one_running_one_queued)%Z.
Proof.
  assert (run [EvAddJob 3 0; EvAddJob 4 0; EvWorker 0 0] (ThreadPool_ctor true 1 0)
          = Some one_running_one_queued) as Hrun
    by (vm_compute; reflexivity).
  split; [exact Hrun|].
  destruct (queries_within_bounds true 1 0 _ _ Hrun) as (_ & _ & _ & H & _);
    [vm_compute; reflexivity | exact H].
Defined.

(** X2.  Along every run from construction in which [stop] is never called
    with [clear_queue = true] (and with fewer than [SSIZE_MAX] submissions),
    the counter is exactly queued + executing: [pendingJobs] is
    [queuedJobs + runningJobs] and [runningJobs] is the number of workers
    that are executing a job. *)
Theorem queries_exact_without_clearing_stop
  (auto_start : bool) (worker_count hw : nat) (evs : list event) (s : ThreadPool) :
  run evs (ThreadPool_ctor auto_start worker_count hw) = Some s →
  (∀ e, e ∈ evs → keeps_accounting e = true) →
  (Z.of_nat (length (submitted evs)) < SSIZE_MAX)%Z →
  accounting s ∧
  pendingJobs s = (queuedJobs s + runningJobs s)%Z ∧
  runningJobs s = Z.of_nat (executing (m_worker_threads s)).
Proof.
  intros Hrun Hev Hmax.
  destruct (run_bounded (λ s, accounting s ∧ stop_inv s) keeps_accounting)
    with (evs := evs) (s := ThreadPool_ctor auto_start worker_count hw)
         (s' := s) (k := 0%Z) as ([Hacc _] & Hcov & Hle); try assumption.
  - intros e s1 s2 He Hstep _ Hlt [Hacc Hinv]. split.
    + apply (accounting_step e s1 s2 Hstep Hinv Hacc Hlt).
      intros c ->. discriminate.
    + eapply stop_inv_step; eassumption.
  - apply counter_covers_jobs_ctor.
  - split; [apply accounting_ctor | apply stop_inv_ctor].
  - rewrite pending_jobs_ctor. lia.
  - split; [exact Hacc|].
    unfold accounting in Hacc. unfold pendingJobs, runningJobs, queuedJobs.
    rewrite !to_size_in_range by lia. lia.
Qed.

Lemma queries_exact_without_clearing_stop_witness :
  run [EvAddJob 3 0; EvAddJob 4 0; EvWorker 0 0] (ThreadPool_ctor true 1 0)
  = Some one_running_one_queued ∧
  runningJobs one_running_one_queued = 1%Z.
Proof.
  assert (run [EvAddJob 3 0; EvAddJob 4 0; EvWorker 0 0] (ThreadPool_ctor true 1 0)
          = Some one_running_one_queued) as Hrun
    by (vm_compute; reflexivity).
  split; [exact Hrun|].
  destruct (queries_exact_without_clearing_stop true 1 0 _ _ Hrun) as (_ & _ & H).
  - intros e He. repeat (apply elem_of_cons in He as [->|He]; [reflexivity|]).
    apply elem_of_nil in He. contradiction.
  - vm_compute. reflexivity.
  - exact H.
Defined.

(** ** Order of execution *)

(** One transition: what was queued plus what is submitted is what starts
    plus what stays queued, unless the transition throws the queue away. *)
Lemma step_queue_fifo (e : event) (s s' : ThreadPool) :
  step e s = Some s' →
  discards e = false →
  m_job_queue s ++ submission e = fetched e s s' ++ m_job_queue s'.
Proof.
  intros Hstep Hd.
  destruct e as [j pick|n hw|c cq|c|c|c| |id pick|id|c]; simpl in Hstep; simpl;
    try discriminate Hd; rewrite ?app_nil_r.
  - injection Hstep as <-. reflexivity.
  - destruct (bool_decide (stop_joining s = ∅)); [|discriminate].
    injection Hstep as <-. unfold start. destruct (m_stopped s); reflexivity.
  - destruct (busy c s); [discriminate|]. injection Hstep as <-.
    destruct cq; [discriminate|].
    unfold stop_lock. destruct (m_stopped s); reflexivity.
  - unfold stop_join in Hstep.
    destruct (stop_joining s !! c) as [k|]; [|discriminate].
    destruct (m_worker_threads s !! k) as [[]|]; try discriminate;
      injection Hstep as <-; reflexivity.
  - destruct (busy c s); [discriminate|]. injection Hstep as <-.
    unfold wait_enter. destruct (0 <? m_pending_jobs s)%Z; reflexivity.
  - destruct (bool_decide (c ∈ counter_woken s)); [|discriminate].
    injection Hstep as <-. unfold wait_wake.
    destruct (m_pending_jobs s =? 0)%Z; reflexivity.
  - apply workerLoop_step_cases in Hstep as [[Hw H]|(job & Hw & ->)].
    + assert (id < length (m_worker_threads s)) as Hlt
        by (eapply lookup_lt_Some, Hw).
      rewrite Hw.
      apply workerLoop_fetch_cases in H
        as [[_ ->]|[(_ & _ & ->)|(_ & job & rest & Hq & ->)]]; simpl;
        rewrite list_lookup_insert_eq by exact Hlt; [reflexivity ..|].
      rewrite Hq. reflexivity.
    + rewrite Hw. reflexivity.
  - unfold spurious_worker in Hstep.
    destruct (m_worker_threads s !! id) as [[]|]; try discriminate.
    injection Hstep as <-. reflexivity.
  - unfold spurious_waiter in Hstep.
    destruct (bool_decide (c ∈ m_counter_cv s)); [|discriminate].
    injection Hstep as <-. reflexivity.
Qed.

(** A transition that throws the queue away starts nothing. *)
Lemma step_queue_discard (e : event) (s s' : ThreadPool) :
  step e s = Some s' →
  discards e = true →
  fetched e s s' = [] ∧ submission e = [] ∧
  (m_job_queue s' = [] ∨ m_job_queue s' = m_job_queue s).
Proof.
  intros Hstep Hd.
  destruct e as [j pick|n hw|c cq|c|c|c| |id pick|id|c]; simpl in Hstep;
    try discriminate Hd.
  - destruct (busy c s); [discriminate|]. injection Hstep as <-.
    split; [reflexivity|]. split; [reflexivity|].
    unfold stop_lock. destruct (m_stopped s); simpl; [right; reflexivity|].
    destruct cq; [left; reflexivity | right; reflexivity].
  - injection Hstep as <-. split; [reflexivity|]. split; [reflexivity|].
    left. reflexivity.
Qed.

Lemma run_fifo (evs : list event) (s s' : ThreadPool) :
  run evs s = Some s' →
  (∀ e, e ∈ evs → discards e = false) →
  m_job_queue s ++ submitted evs = started evs s ++ m_job_queue s'.
Proof.
  revert s. induction evs as [|e evs IH]; intros s Hrun Hev; simpl in *.
  - injection Hrun as <-. apply app_nil_r.
  - destruct (step e s) as [s1|] eqn:Hstep; [|discriminate].
    rewrite app_assoc, (step_queue_fifo e s s1 Hstep) by (apply Hev; left).
    rewrite <- !app_assoc. f_equal. apply IH; [exact Hrun|].
    intros e' He'. apply Hev. right. exact He'.
Qed.

Lemma run_started_sublist (evs : list event) (s s' : ThreadPool) :
  run evs s = Some s' →
  started evs s ++ m_job_queue s' `sublist_of` m_job_queue s ++ submitted evs.
Proof.
  revert s. induction evs as [|e evs IH]; intros s Hrun; simpl in *.
  - injection Hrun as <-. rewrite app_nil_r. reflexivity.
  - destruct (step e s) as [s1|] eqn:Hstep; [|discriminate].
    specialize (IH s1 Hrun).
    destruct (discards e) eqn:Hd.
    + destruct (step_queue_discard e s s1 Hstep Hd) as (-> & -> & [Hq|Hq]);
        simpl; rewrite Hq in IH.
      * simpl in IH. etrans; [exact IH|]. apply sublist_inserts_l. reflexivity.
      * exact IH.
    + rewrite app_assoc, (step_queue_fifo e s s1 Hstep Hd), <- !app_assoc.
      apply sublist_app; [reflexivity | exact IH].
Qed.

(** X3.  Jobs start in the order in which they are submitted: along a run
    without [clearQueue] and without [stop(true)], the jobs queued at the
    beginning followed by the jobs submitted are exactly the jobs started,
    in the order of their start, followed by the jobs still queued.  From
    an empty queue the jobs started are a prefix of the jobs submitted. *)
Theorem jobs_start_in_submission_order (evs : list event) (s s' : ThreadPool) :
  run evs s = Some s' →
  (∀ e, e ∈ evs → discards e = false) →
  m_job_queue s ++ submitted evs = started evs s ++ m_job_queue s' ∧
  (m_job_queue s = [] → started evs s `prefix_of` submitted evs).
Proof.
  intros Hrun Hev. pose proof (run_fifo evs s s' Hrun Hev) as H.
  split; [exact H|]. intros Hq. rewrite Hq in H. simpl in H.
  exists (m_job_queue s'). exact H.
Qed.

Lemma jobs_start_in_submission_order_witness :
  run [EvAddJob 3 0; EvAddJob 4 0; EvWorker 0 0] (ThreadPool_ctor true 1 0)
  = Some one_running_one_queued ∧
  [] ++ submitted [EvAddJob 3 0; EvAddJob 4 0; EvWorker 0 0]
  = started [EvAddJob 3 0; EvAddJob 4 0; EvWorker 0 0] (ThreadPool_ctor true 1 0)
    ++ [4].
Proof.
  assert (run [EvAddJob 3 0; EvAddJob 4 0; EvWorker 0 0] (ThreadPool_ctor true 1 0)
          = Some one_running_one_queued) as Hrun
    by (vm_compute; reflexivity).
  split; [exact Hrun|].
  refine (proj1 (jobs_start_in_submission_order _ _ _ Hrun _)).
  intros e He. repeat (apply elem_of_cons in He as [->|He]; [reflexivity|]).
  apply elem_of_nil in He. contradiction.
Defined.

(** X4.  Whatever is discarded on the way, the jobs started along a run are
    jobs that were queued at its beginning or submitted during it, started
    in that order and none more often than it was submitted: the started
    jobs followed by the jobs still queued are a sublist of the jobs queued
    at the beginning followed by the submissions. *)
Theorem started_jobs_were_submitted (evs : list event) (s s' : ThreadPool) :
  run evs s = Some s' →
  started evs s ++ m_job_queue s' `sublist_of` m_job_queue s ++ submitted evs ∧
  started evs s `sublist_of` m_job_queue s ++ submitted evs ∧
  length (started evs s) + length (m_job_queue s')
  ≤ length (m_job_queue s) + length (submitted evs).
Proof.
  intros Hrun. pose proof (run_started_sublist evs s s' Hrun) as H.
  split; [exact H|]. split.
  - etrans; [|exact H]. apply sublist_inserts_r. reflexivity.
  - apply sublist_length in H. rewrite !length_app in H. exact H.
Qed.

Lemma started_jobs_were_submitted_witness :
  run [EvAddJob 3 0; EvAddJob 4 0; EvWorker 0 0; EvClearQueue; EvAddJob 5 0]
    (ThreadPool_ctor true 1 0)
  = Some (addJob 5 0 (snd (clearQueue one_running_one_queued))) ∧
  started [EvAddJob 3 0; EvAddJob 4 0; EvWorker 0 0; EvClearQueue; EvAddJob 5 0]
    (ThreadPool_ctor true 1 0) ++ [5] `sublist_of` [] ++ [3; 4; 5].
Proof.
  assert (run [EvAddJob 3 0; EvAddJob 4 0; EvWorker 0 0; EvClearQueue; EvAddJob 5 0]
            (ThreadPool_ctor true 1 0)
          = Some (addJob 5 0 (snd (clearQueue one_running_one_queued)))) as Hrun
    by (vm_compute; reflexivity).
  split; [exact Hrun|].
  exact (proj1 (started_jobs_were_submitted _ _ _ Hrun)).
Defined.

Lemma discards_keeps_accounting (e : event) :
  discards e = false → keeps_accounting e = true.
Proof. destruct e as [| |c []| | | | | | |]; simpl; congruence. Qed.

(** X5.  When the counter is 0 nothing is left to do: in a state reached
    from construction without [clearQueue] and [stop(true)] (and with fewer
    than [SSIZE_MAX] submissions) in which [pendingJobs] is 0, the queue is
    empty, no worker is executing a job, and the jobs started so far are
    exactly the jobs submitted, in the order of submission. *)
Theorem idle_pool_has_run_everything
  (auto_start : bool) (worker_count hw : nat) (evs : list event) (s : ThreadPool) :
  run evs (ThreadPool_ctor auto_start worker_count hw) = Some s →
  (∀ e, e ∈ evs → discards e = false) →
  (Z.of_nat (length (submitted evs)) < SSIZE_MAX)%Z →
  pendingJobs s = 0%Z →
  m_job_queue s = [] ∧
  executing (m_worker_threads s) = 0 ∧
  runningJobs s = 0%Z ∧
  started evs (ThreadPool_ctor auto_start worker_count hw) = submitted evs.
Proof.
  intros Hrun Hev Hmax Hp.
  destruct (run_bounded (λ s, accounting s ∧ stop_inv s) keeps_accounting)
    with (evs := evs) (s := ThreadPool_ctor auto_start worker_count hw)
         (s' := s) (k := 0%Z) as ([Hacc _] & Hcov & Hle); try assumption.
  - intros e s1 s2 He Hstep _ Hlt [Hacc Hinv]. split.
    + apply (accounting_step e s1 s2 Hstep Hinv Hacc Hlt).
      intros c ->. discriminate.
    + eapply stop_inv_step; eassumption.
  - intros e He. apply discards_keeps_accounting, Hev, He.
  - apply counter_covers_jobs_ctor.
  - split; [apply accounting_ctor | apply stop_inv_ctor].
  - rewrite pending_jobs_ctor. lia.
  - unfold accounting in Hacc. unfold pendingJobs in Hp.
    rewrite to_size_in_range in Hp by lia.
    assert (m_job_queue s = []) as Hq by (apply length_zero_iff_nil; lia).
    split; [exact Hq|]. split; [lia|]. split.
    + unfold runningJobs. rewrite Hq, Hp. reflexivity.
    + pose proof (run_fifo evs _ s Hrun Hev) as H. rewrite Hq, app_nil_r in H.
      rewrite <- H. unfold ThreadPool_ctor. destruct auto_start; reflexivity.
Qed.

Lemma idle_pool_has_run_everything_witness :
  run [EvAddJob 7 0; EvStart 1 0; EvWorker 0 0; EvWorker 0 0]
    (ThreadPool_ctor false 0 0)
  = Some (mkThreadPool false false [] [AtLoopHead] 0%Z [] [] ∅) ∧
  started [EvAddJob 7 0; EvStart 1 0; EvWorker 0 0; EvWorker 0 0]
    (ThreadPool_ctor false 0 0)
  = submitted [EvAddJob 7 0; EvStart 1 0; EvWorker 0 0; EvWorker 0 0].
Proof.
  assert (run [EvAddJob 7 0; EvStart 1 0; EvWorker 0 0; EvWorker 0 0]
            (ThreadPool_ctor false 0 0)
          = Some (mkThreadPool false false [] [AtLoopHead] 0%Z [] [] ∅)) as Hrun
    by (vm_compute; reflexivity).
  split; [exact Hrun|].
  destruct (idle_pool_has_run_everything false 0 0 _ _ Hrun) as (_ & _ & _ & H).
  - intros e He. repeat (apply elem_of_cons in He as [->|He]; [reflexivity|]).
    apply elem_of_nil in He. contradiction.
  - vm_compute. reflexivity.
  - vm_compute. reflexivity.
  - exact H.
Defined.

(** ** Workers across start and stop *)

Lemma none_blocked_notify_one (pick : nat) (s : ThreadPool) :
  none_blocked s → notify_one pick (m_worker_threads s) = m_worker_threads s.
Proof.
  intros Hnb.
  destruct (notify_one_spec pick (m_worker_threads s)) as [[_ H]|(i & Hi & _)];
    [exact H | destruct (Hnb i Hi)].
Qed.

Lemma stopped_inv_step (e : event) (s s' : ThreadPool) :
  step e s = Some s' → stopped_inv s → stopped_inv s'.
Proof.
  unfold stopped_inv, none_blocked. intros Hstep Hinv.
  destruct e as [j pick|n hw|c cq|c|c|c| |id pick|id|c]; simpl in Hstep.
  - injection Hstep as <-. simpl. intros Hst.
    destruct (Hinv Hst) as [Hnb Hws].
    rewrite (none_blocked_notify_one pick s Hnb). split; assumption.
  - destruct (bool_decide (stop_joining s = ∅)); [|discriminate].
    injection Hstep as <-. unfold start.
    destruct (m_stopped s) eqn:Es; simpl; [discriminate | congruence].
  - destruct (busy c s); [discriminate|]. injection Hstep as <-.
    unfold stop_lock. destruct (m_stopped s) eqn:Es; simpl;
      [intros _; apply Hinv; reflexivity|].
    intros _. split.
    + intros i. rewrite notify_all_lookup.
      destruct (m_worker_threads s !! i) as [[]|]; simpl; congruence.
    + intros He. destruct (insert_non_empty (stop_joining s) c 0 He).
  - unfold stop_join in Hstep.
    destruct (stop_joining s !! c) as [k|]; [|discriminate].
    destruct (m_worker_threads s !! k) as [[]|]; try discriminate;
      injection Hstep as <-; simpl; intros Hst.
    + split; [apply (Hinv Hst)|].
      intros He. destruct (insert_non_empty (stop_joining s) c (S k) He).
    + split; [|reflexivity]. intros i. rewrite lookup_nil. discriminate.
  - destruct (busy c s); [discriminate|]. injection Hstep as <-.
    unfold wait_enter. destruct (0 <? m_pending_jobs s)%Z; exact Hinv.
  - destruct (bool_decide (c ∈ counter_woken s)); [|discriminate].
    injection Hstep as <-. unfold wait_wake.
    destruct (m_pending_jobs s =? 0)%Z; exact Hinv.
  - injection Hstep as <-. exact Hinv.
  - intros Hst'.
    assert (m_stopped s = true ∧ stop_joining s' = stop_joining s ∧
            ∃ w, w ≠ InManagementWait ∧ is_Some (m_worker_threads s !! id) ∧
                 m_worker_threads s' = <[id := w]> (m_worker_threads s))
      as (Hst & Ej & w & Hw & Hid & Ews).
    { apply workerLoop_step_cases in Hstep as [[Hw H]|(job & Hw & ->)].
      - apply workerLoop_fetch_cases in H
          as [[Hs ->]|[(Hs & _ & ->)|(Hs & job & rest & _ & ->)]];
          simpl in Hst'; try congruence.
        split; [exact Hs|]. split; [reflexivity|].
        exists LoopExited. split; [discriminate|]. split; [eauto | reflexivity].
      - simpl in Hst'. split; [exact Hst'|]. split; [reflexivity|].
        exists AtLoopHead. split; [discriminate|]. split; [eauto | reflexivity]. }
    destruct (Hinv Hst) as [Hnb Hws]. split.
    + intros i. rewrite Ews. destruct (decide (i = id)) as [->|Hne].
      * rewrite list_lookup_insert_eq by (apply lookup_lt_is_Some, Hid). congruence.
      * rewrite list_lookup_insert_ne by congruence. apply Hnb.
    + intros He. rewrite Ej in He. rewrite (Hws He) in Hid.
      rewrite lookup_nil in Hid. destruct Hid as [? ?]. discriminate.
  - unfold spurious_worker in Hstep.
    destruct (m_worker_threads s !! id) as [[]|] eqn:Hw; try discriminate.
    injection Hstep as <-. simpl. intros Hst. destruct (Hinv Hst) as [Hnb _].
    destruct (Hnb id Hw).
  - unfold spurious_waiter in Hstep.
    destruct (bool_decide (c ∈ m_counter_cv s)); [|discriminate].
    injection Hstep as <-. exact Hinv.
Qed.

Lemma stopped_inv_run (evs : list event) (s s' : ThreadPool) :
  run evs s = Some s' → stopped_inv s → stopped_inv s'.
Proof.
  revert s. induction evs as [|e evs IH]; intros s Hrun Hinv; simpl in Hrun.
  - injection Hrun as <-. exact Hinv.
  - destruct (step e s) as [s1|] eqn:Hstep; [|discriminate].
    eapply IH; [exact Hrun|]. eapply stopped_inv_step; eassumption.
Qed.

Lemma reachable_stopped_inv (s : ThreadPool) : reachable s → stopped_inv s.
Proof.
  intros (auto_start & worker_count & hw & evs & Hrun).
  eapply stopped_inv_run; [exact Hrun|].
  unfold ThreadPool_ctor, stopped_inv, none_blocked.
  destruct auto_start; simpl; [discriminate|].
  intros _. split; [|reflexivity]. intros i. rewrite lookup_nil. discriminate.
Qed.

Lemma stop_lock_stopped_inv (c : tid) (clear_queue : bool) (s : ThreadPool) :
  stopped_inv s → stopped_inv (snd (stop_lock c clear_queue s)).
Proof.
  unfold stopped_inv, none_blocked, stop_lock. intros Hinv.
  destruct (m_stopped s) eqn:Es; simpl; [intros _; apply Hinv; reflexivity|].
  intros _. split.
  - intros i. rewrite notify_all_lookup.
    destruct (m_worker_threads s !! i) as [[]|]; simpl; congruence.
  - intros He. destruct (insert_non_empty (stop_joining s) c 0 He).
Qed.

(** X6.  The pool builds its whole worker set anew on each start: a pool
    that [isStopped] reports as stopped, with no [stop] in progress, has no
    worker thread left, so [start n] gives it exactly [n] workers ([hw] of
    them for [n = 0]) and reports success. *)
Theorem start_after_stop_has_fresh_workers
  (s : ThreadPool) (worker_count hw : nat) :
  reachable s →
  isStopped s = true →
  stop_joining s = ∅ →
  m_worker_threads s = [] ∧
  start worker_count hw s
  = (true, snd (start worker_count hw s)) ∧
  isStopped (snd (start worker_count hw s)) = false ∧
  m_worker_threads (snd (start worker_count hw s))
  = replicate (if worker_count =? 0 then hw else worker_count) AtLoopHead.
Proof.
  unfold isStopped. intros Hreach Hst He.
  destruct (reachable_stopped_inv s Hreach Hst) as [_ Hws].
  specialize (Hws He). split; [exact Hws|].
  unfold start. rewrite Hst, Hws. simpl. repeat split.
Qed.

Lemma start_after_stop_has_fresh_workers_witness :
  run [EvStop 0 true; EvWorker 0 0; EvWorker 1 0; EvJoin 0; EvJoin 0; EvJoin 0]
    fresh_pool = Some empty_pool ∧
  m_worker_threads (snd (start 3 0 empty_pool))
  = [AtLoopHead; AtLoopHead; AtLoopHead].
Proof.
  assert (run [EvStop 0 true; EvWorker 0 0; EvWorker 1 0; EvJoin 0; EvJoin 0;
               EvJoin 0] fresh_pool = Some empty_pool) as Hrun
    by (vm_compute; reflexivity).
  split; [exact Hrun|].
  refine (proj2 (proj2 (proj2
    (start_after_stop_has_fresh_workers empty_pool 3 0 _ eq_refl eq_refl)))).
  exists true, 2, 0. eexists. exact Hrun.
Defined.

(** X7.  No worker sleeps through a stop: in a reachable pool that
    [isStopped] reports as stopped, no worker is blocked on
    [m_management_cv], and every worker that has not left [workerLoop] can
    take its next step. *)
Theorem stopped_pool_has_no_sleeping_worker (s : ThreadPool) :
  reachable s →
  isStopped s = true →
  blocked_workers (m_worker_threads s) = 0 ∧
  ∀ id pick w,
    m_worker_threads s !! id = Some w → w ≠ LoopExited →
    is_Some (workerLoop_step id pick s).
Proof.
  unfold isStopped. intros Hreach Hst.
  destruct (reachable_stopped_inv s Hreach Hst) as [Hnb _].
  split; [apply blocked_workers_none, Hnb|].
  intros id pick w Hw Hne. unfold workerLoop_step. rewrite Hw.
  destruct w; [apply workerLoop_fetch_total | destruct (Hnb id Hw) | eauto
              | contradiction].
Qed.

Lemma stopped_pool_has_no_sleeping_worker_witness :
  run [EvWorker 0 0; EvStop 0 false] fresh_pool
  = Some (snd (stop_lock 0 false
                 (set_worker 0 InManagementWait fresh_pool []))) ∧
  blocked_workers
    (m_worker_threads
       (snd (stop_lock 0 false (set_worker 0 InManagementWait fresh_pool []))))
  = 0.
Proof.
  assert (run [EvWorker 0 0; EvStop 0 false] fresh_pool
          = Some (snd (stop_lock 0 false
                         (set_worker 0 InManagementWait fresh_pool [])))) as Hrun
    by (vm_compute; reflexivity).
  split; [exact Hrun|].
  refine (proj1 (stopped_pool_has_no_sleeping_worker
    (snd (stop_lock 0 false (set_worker 0 InManagementWait fresh_pool [])))
    _ eq_refl)).
  exists true, 2, 0. eexists. exact Hrun.
Defined.

(** ** Termination of stop *)

(** In a Stopped pool a worker that is not asleep leaves its loop after at
    most two steps of its own: it finishes the job it is running, if any,
    and then sees the flag. *)
Lemma worker_exit_moves (c : tid) (id : nat) (w : worker_pc) (s : ThreadPool) :
  m_stopped s = true →
  m_worker_threads s !! id = Some w →
  w ≠ InManagementWait →
  ∃ evs s',
    run evs s = Some s' ∧
    (∀ e, e ∈ evs → stop_move c e = true) ∧
    m_stopped s' = true ∧
    stop_joining s' = stop_joining s ∧
    m_job_queue s' = m_job_queue s ∧
    m_worker_threads s' = <[id := LoopExited]> (m_worker_threads s).
Proof.
  intros Hst Hw Hne. destruct w as [| |job|]; [|contradiction| |].
  - exists [EvWorker id 0], (set_worker id LoopExited s (m_job_queue s)).
    split.
    { simpl. rewrite (proj1 (stopped_worker_exits id 0 s Hst Hw)). reflexivity. }
    split; [|repeat split; assumption].
    intros e He. apply list_elem_of_singleton in He as ->. reflexivity.
  - destruct (running_job_finishes id 0 job s Hw) as (Hstep1 & Hw1 & _ & Hq1).
    assert (m_stopped (workerLoop_finish id 0 s) = true) as Hst1 by exact Hst.
    destruct (stopped_worker_exits id 0 _ Hst1 Hw1) as [Hstep2 _].
    eexists [EvWorker id 0; EvWorker id 0], _. split.
    { simpl. rewrite Hstep1, Hstep2. reflexivity. }
    split.
    { intros e He. repeat (apply elem_of_cons in He as [->|He]; [reflexivity|]).
      apply elem_of_nil in He. contradiction. }
    simpl. repeat split; try assumption. apply list_insert_insert_eq.
  - exists [], s. split; [reflexivity|]. split.
    { intros e He. apply elem_of_nil in He. contradiction. }
    repeat split; try assumption. symmetry. apply list_insert_id, Hw.
Qed.

(** All workers of a Stopped pool can be brought out of their loops by
    their own steps, without touching the queue. *)
Lemma workers_exit_moves (c : tid) (n : nat) (s : ThreadPool) :
  m_stopped s = true →
  none_blocked s →
  n ≤ length (m_worker_threads s) →
  ∃ evs s',
    run evs s = Some s' ∧
    (∀ e, e ∈ evs → stop_move c e = true) ∧
    m_stopped s' = true ∧
    stop_joining s' = stop_joining s ∧
    m_job_queue s' = m_job_queue s ∧
    length (m_worker_threads s') = length (m_worker_threads s) ∧
    none_blocked s' ∧
    ∀ i, i < n → m_worker_threads s' !! i = Some LoopExited.
Proof.
  intros Hst Hnb. induction n as [|n IH]; intros Hn.
  - exists [], s. split; [reflexivity|]. split.
    { intros e He. apply elem_of_nil in He. contradiction. }
    repeat split; try assumption. intros i Hi. lia.
  - destruct IH as (evs1 & s1 & Hrun1 & Hev1 & Hst1 & Ej1 & Eq1 & El1 & Hnb1 & Hex1);
      [lia|].
    destruct (lookup_lt_is_Some_2 (m_worker_threads s1) n) as [w Hw]; [lia|].
    destruct (worker_exit_moves c n w s1 Hst1 Hw (λ E, Hnb1 n (eq_ind _ _ Hw _ (f_equal Some E))))
      as (evs2 & s2 & Hrun2 & Hev2 & Hst2 & Ej2 & Eq2 & Ews2).
    exists (evs1 ++ evs2), s2. split.
    { rewrite run_app, Hrun1. exact Hrun2. }
    split.
    { intros e He. apply elem_of_app in He as [He|He]; [apply Hev1 | apply Hev2];
        exact He. }
    split; [exact Hst2|]. split; [congruence|]. split; [congruence|].
    split; [rewrite Ews2, length_insert; exact El1|].
    split.
    + intros i. rewrite Ews2. destruct (decide (i = n)) as [->|Hne].
      * rewrite list_lookup_insert_eq by lia. discriminate.
      * rewrite list_lookup_insert_ne by congruence. apply Hnb1.
    + intros i Hi. rewrite Ews2. destruct (decide (i = n)) as [->|Hne].
      * apply list_lookup_insert_eq. lia.
      * rewrite list_lookup_insert_ne by congruence. apply Hex1. lia.
Qed.

(** When every worker has left its loop, the join loop runs to its end. *)
Lemma join_moves (c : tid) (d : nat) :
  ∀ (s : ThreadPool) (k : nat),
    (∀ i, i < length (m_worker_threads s) →
          m_worker_threads s !! i = Some LoopExited) →
    stop_joining s !! c = Some k →
    length (m_worker_threads s) ≤ k + d →
    ∃ evs t s',
      run evs s = Some t ∧
      (∀ e, e ∈ evs → stop_move c e = true) ∧
      stop_join c t = JoinReturned true s' ∧
      m_stopped t = m_stopped s ∧
      m_job_queue t = m_job_queue s.
Proof.
  induction d as [|d IH]; intros s k Hex Hc Hd.
  - exists [], s. eexists. split; [reflexivity|]. split.
    { intros e He. apply elem_of_nil in He. contradiction. }
    split; [|split; reflexivity].
    unfold stop_join. rewrite Hc.
    rewrite (proj2 (lookup_ge_None (m_worker_threads s) k)) by lia. reflexivity.
  - destruct (decide (k < length (m_worker_threads s))) as [Hlt|Hge].
    + pose proof (Hex k Hlt) as Hk.
      set (s1 := mkThreadPool (m_stopped s) (m_waiting s) (m_job_queue s)
                   (m_worker_threads s) (m_pending_jobs s) (m_counter_cv s)
                   (counter_woken s) (<[c := S k]> (stop_joining s))).
      assert (step (EvJoin c) s = Some s1) as Hstep
        by (simpl; unfold stop_join; rewrite Hc, Hk; reflexivity).
      destruct (IH s1 (S k)) as (evs & t & s' & Hrun & Hev & Hj & Est & Eq).
      * exact Hex.
      * apply lookup_insert_eq.
      * simpl. lia.
      * exists (EvJoin c :: evs), t, s'. split.
        { simpl in Hstep. simpl. rewrite Hstep. exact Hrun. }
        split.
        { intros e He. apply elem_of_cons in He as [->|He];
            [simpl; apply Nat.eqb_refl | apply Hev, He]. }
        split; [exact Hj|]. split; assumption.
    + exists [], s. eexists. split; [reflexivity|]. split.
      { intros e He. apply elem_of_nil in He. contradiction. }
      split; [|split; reflexivity].
      unfold stop_join. rewrite Hc.
      rewrite (proj2 (lookup_ge_None (m_worker_threads s) k)) by lia. reflexivity.
Qed.

(** From a state in which thread [c] is inside the join loop, worker steps
    and moves of that loop lead to the return of the loop. *)
Lemma join_loop_can_finish (c : tid) (s : ThreadPool) :
  stop_inv s →
  stopped_inv s →
  is_Some (stop_joining s !! c) →
  ∃ evs t s',
    run evs s = Some t ∧
    (∀ e, e ∈ evs → stop_move c e = true) ∧
    stop_join c t = JoinReturned true s' ∧
    (∀ i w, m_worker_threads t !! i = Some w → w = LoopExited) ∧
    m_job_queue s' = m_job_queue s ∧
    m_stopped s' = true ∧
    m_worker_threads s' = [] ∧
    stop_joining s' !! c = None.
Proof.
  intros Hinv Hsinv Hc.
  pose proof (proj2 Hinv c Hc) as Hst.
  destruct (Hsinv Hst) as [Hnb _].
  destruct (workers_exit_moves c (length (m_worker_threads s)) s Hst Hnb)
    as (evs1 & s1 & Hrun1 & Hev1 & Hst1 & Ej1 & Eq1 & El1 & _ & Hex1); [lia|].
  destruct Hc as [k Hc]. rewrite <- Ej1 in Hc. rewrite <- El1 in Hex1.
  destruct (join_moves c (length (m_worker_threads s1)) s1 k Hex1 Hc)
    as (evs2 & t & s' & Hrun2 & Hev2 & Hj & Est & Eq2); [lia|].
  assert (run (evs1 ++ evs2) s = Some t) as Hrun
    by (rewrite run_app, Hrun1; exact Hrun2).
  exists (evs1 ++ evs2), t, s'. split; [exact Hrun|]. split.
  { intros e He. apply elem_of_app in He as [He|He]; [apply Hev1 | apply Hev2];
      exact He. }
  split; [exact Hj|].
  assert (stop_inv t) as Hinvt by (eapply stop_inv_run; eassumption).
  destruct (stop_join_returned c t s' true Hinvt Hj)
    as (_ & Hall & Hws & Hnone & Hst' & Hq' & _).
  split; [exact Hall|]. split; [congruence|]. split; [exact Hst'|].
  split; assumption.
Qed.

(** X8.  [stop] can always come back.  From every reachable state in which
    a thread is inside the join loop of [stop] there is a continuation made
    only of worker steps and of moves of that join loop (no spurious
    wake-up, no other call) after which the join loop returns [true]: each
    worker only has to finish the job it is running.  The queue is not
    touched on the way, and afterwards the pool is Stopped with no worker
    thread. *)
Theorem stop_can_return (s : ThreadPool) (c : tid) :
  reachable s →
  is_Some (stop_joining s !! c) →
  ∃ evs t s',
    run evs s = Some t ∧
    (∀ e, e ∈ evs → stop_move c e = true) ∧
    stop_join c t = JoinReturned true s' ∧
    m_job_queue s' = m_job_queue s ∧
    isStopped s' = true ∧
    m_worker_threads s' = [] ∧
    stop_joining s' !! c = None.
Proof.
  intros Hreach Hc.
  pose proof (reachable_stop_inv s Hreach) as Hinv.
  pose proof (proj2 Hinv c Hc) as Hst.
  destruct (reachable_stopped_inv s Hreach Hst) as [Hnb _].
  destruct (workers_exit_moves c (length (m_worker_threads s)) s Hst Hnb)
    as (evs1 & s1 & Hrun1 & Hev1 & Hst1 & Ej1 & Eq1 & El1 & _ & Hex1); [lia|].
  destruct Hc as [k Hc]. rewrite <- Ej1 in Hc. rewrite <- El1 in Hex1.
  destruct (join_moves c (length (m_worker_threads s1)) s1 k Hex1 Hc)
    as (evs2 & t & s' & Hrun2 & Hev2 & Hj & Est & Eq2); [lia|].
  assert (run (evs1 ++ evs2) s = Some t) as Hrun
    by (rewrite run_app, Hrun1; exact Hrun2).
  exists (evs1 ++ evs2), t, s'. split; [exact Hrun|]. split.
  { intros e He. apply elem_of_app in He as [He|He]; [apply Hev1 | apply Hev2];
      exact He. }
  split; [exact Hj|].
  assert (stop_inv t) as Hinvt by (eapply stop_inv_run; eassumption).
  destruct (stop_join_returned c t s' true Hinvt Hj)
    as (_ & _ & Hws & Hnone & Hst' & Hq' & _).
  split; [congruence|]. split; [exact Hst'|]. split; assumption.
Qed.

Lemma stop_can_return_witness :
  run [EvAddJob 9 0; EvWorker 0 0; EvStop 0 true] fresh_pool
  = Some (snd (stop_lock 0 true (set_worker 0 (RunningJob 9)
                                   (addJob 9 0 fresh_pool) []))) ∧
  ∃ evs t s',
    run evs (snd (stop_lock 0 true (set_worker 0 (RunningJob 9)
                                     (addJob 9 0 fresh_pool) []))) = Some t ∧
    stop_join 0 t = JoinReturned true s'.
Proof.
  assert (run [EvAddJob 9 0; EvWorker 0 0; EvStop 0 true] fresh_pool
          = Some (snd (stop_lock 0 true (set_worker 0 (RunningJob 9)
                                           (addJob 9 0 fresh_pool) [])))) as Hrun
    by (vm_compute; reflexivity).
  split; [exact Hrun|].
  destruct (stop_can_return
              (snd (stop_lock 0 true (set_worker 0 (RunningJob 9)
                                        (addJob 9 0 fresh_pool) []))) 0)
    as (evs & t & s' & Hr & _ & Hj & _).
  - exists true, 2, 0. eexists. exact Hrun.
  - vm_compute. eauto.
  - exists evs, t, s'. split; assumption.
Defined.

(** ** Destruction *)

(** The join loop waits at a worker that has not left [workerLoop]. *)
Lemma stop_join_blocked (c : tid) (k : nat) (w : worker_pc) (s : ThreadPool) :
  stop_joining s !! c = Some k →
  m_worker_threads s !! k = Some w →
  w ≠ LoopExited →
  stop_join c s = JoinBlocked.
Proof.
  intros Hc Hk Hw. unfold stop_join. rewrite Hc, Hk.
  destruct w; [reflexivity | reflexivity | reflexivity | contradiction].
Qed.

(** C9.  The destructor is [stop] with [clear_queue = true].  On a Running
    pool it sets the pool Stopped, empties the queue, wakes every blocked
    worker, leaves the jobs being executed alone and enters the join loop
    at the first worker thread.  While it is joining, the pool is Stopped
    and no worker step takes a job; the join loop waits at a worker that
    has not left [workerLoop] and is left, with result [true], only when
    every worker thread has left it, after which the set of worker threads
    is empty.  The loop does come to its end: from every point of the
    destruction, worker steps (each worker finishing only the job it is
    running) and moves of the join loop lead to its return, with every
    worker thread joined and none of the discarded jobs run. *)
Theorem destructor_stops_and_clears (s : ThreadPool) (c : tid) :
  reachable s →
  m_stopped s = false →
  let s0 := snd (ThreadPool_dtor c s) in
  ThreadPool_dtor c s = stop_lock c true s ∧
  fst (ThreadPool_dtor c s) = None ∧
  m_stopped s0 = true ∧
  m_job_queue s0 = [] ∧
  queuedJobs s0 = 0%Z ∧
  blocked_workers (m_worker_threads s0) = 0 ∧
  stop_joining s0 !! c = Some 0 ∧
  (∀ i job, m_worker_threads s0 !! i = Some (RunningJob job) ↔
            m_worker_threads s !! i = Some (RunningJob job)) ∧
  ∀ evs t, run evs s0 = Some t →
    (is_Some (stop_joining t !! c) →
     m_stopped t = true ∧
     ∀ id pick t', workerLoop_step id pick t = Some t' →
       m_job_queue t' = m_job_queue t ∧
       ∀ i job, m_worker_threads t' !! i = Some (RunningJob job) →
                m_worker_threads t !! i = Some (RunningJob job)) ∧
    (∀ result t', stop_join c t = JoinReturned result t' →
       result = true ∧
       (∀ i w, m_worker_threads t !! i = Some w → w = LoopExited) ∧
       m_worker_threads t' = [] ∧
       stop_joining t' !! c = None) ∧
    (∀ k w, stop_joining t !! c = Some k →
            m_worker_threads t !! k = Some w → w ≠ LoopExited →
            stop_join c t = JoinBlocked ∧ step (EvJoin c) t = None) ∧
    (is_Some (stop_joining t !! c) →
     ∃ evs' u u',
       run evs' t = Some u ∧
       (∀ e, e ∈ evs' → stop_move c e = true) ∧
       stop_join c u = JoinReturned true u' ∧
       (∀ i w, m_worker_threads u !! i = Some w → w = LoopExited) ∧
       m_worker_threads u' = [] ∧
       stop_joining u' !! c = None ∧
       m_stopped u' = true ∧
       m_job_queue u' = m_job_queue t).
Proof.
  intros Hreach Hst s0. subst s0. unfold ThreadPool_dtor.
  destruct (stop_lock_running c true s Hst) as (H0 & H1 & H2 & _ & H4 & H5 & H6).
  split; [reflexivity|]. split; [exact H0|]. split; [exact H1|].
  split; [exact H2|]. split; [unfold queuedJobs; rewrite H2; reflexivity|].
  split; [exact H5|]. split; [exact H4|]. split; [exact H6|].
  intros evs t Hrun.
  assert (stop_inv t) as Hinv.
  { eapply stop_inv_run; [exact Hrun|].
    apply stop_lock_inv, reachable_stop_inv, Hreach. }
  assert (stopped_inv t) as Hsinv.
  { eapply stopped_inv_run; [exact Hrun|].
    apply stop_lock_stopped_inv, reachable_stopped_inv, Hreach. }
  split; [|split; [|split]].
  - intros Hc. pose proof (proj2 Hinv c Hc) as Ht. split; [exact Ht|].
    intros id pick t' Hstep.
    destruct (stopped_no_dequeue id pick t t' Ht Hstep) as (_ & Hq & Hr).
    split; assumption.
  - intros result t' Hj.
    destruct (stop_join_returned c t t' result Hinv Hj) as (Ha & Hb & Hc & Hd & _).
    repeat split; assumption.
  - intros k w Hc Hk Hw.
    pose proof (stop_join_blocked c k w t Hc Hk Hw) as Hb.
    split; [exact Hb|]. simpl. rewrite Hb. reflexivity.
  - intros Hc.
    destruct (join_loop_can_finish c t Hinv Hsinv Hc)
      as (evs' & u & u' & Hr & Hev & Hj & Hall & Hq & Hs & Hws & Hnone).
    exists evs', u, u'. repeat split; assumption.
Qed.

Lemma destructor_stops_and_clears_witness :
  run to_job_in_flight fresh_pool = Some job_in_flight ∧
  m_stopped job_in_flight = false ∧
  m_job_queue job_in_flight = [10] ∧
  m_job_queue (snd (ThreadPool_dtor 0 job_in_flight)) = [] ∧
  m_worker_threads (snd (ThreadPool_dtor 0 job_in_flight)) !! 0
  = Some (RunningJob 9) ∧
  step (EvJoin 0) (snd (ThreadPool_dtor 0 job_in_flight)) = None ∧
  (∃ t t', run drain_in_flight (snd (ThreadPool_dtor 0 job_in_flight)) = Some t ∧
           stop_join 0 t = JoinReturned true t' ∧
           (∀ i w, m_worker_threads t !! i = Some w → w = LoopExited) ∧
           m_worker_threads t' = [] ∧
           stop_joining t' !! 0 = None) ∧
  (∃ evs u u', run evs (snd (ThreadPool_dtor 0 job_in_flight)) = Some u ∧
               stop_join 0 u = JoinReturned true u' ∧
               m_worker_threads u' = [] ∧
               m_job_queue u' = []).
Proof.
  split; [vm_compute; reflexivity|]. split; [reflexivity|].
  split; [reflexivity|].
  destruct (destructor_stops_and_clears job_in_flight 0
              job_in_flight_reachable eq_refl)
    as (_ & _ & _ & Hq & _ & _ & Hc & Hkeep & Hafter).
  split; [exact Hq|].
  split; [apply (proj2 (Hkeep 0 9)); reflexivity|].
  destruct (Hafter [] _ eq_refl) as (_ & _ & Hblocked & Hfinish).
  split; [apply (proj2 (Hblocked 0 (RunningJob 9) Hc eq_refl ltac:(discriminate)))|].
  split.
  - assert (∃ t, run drain_in_flight (snd (ThreadPool_dtor 0 job_in_flight)) = Some t)
      as [t Hrun] by (eexists; vm_compute; reflexivity).
    assert (∃ t', stop_join 0 t = JoinReturned true t') as [t' Hj].
    { vm_compute in Hrun. injection Hrun as <-. eexists. vm_compute. reflexivity. }
    destruct (Hafter drain_in_flight t Hrun) as (_ & Hret & _).
    destruct (Hret true t' Hj) as (_ & Hall & Hws & Hnone).
    exists t, t'. repeat split; assumption.
  - destruct Hfinish as (evs & u & u' & Hr & _ & Hj & _ & Hws & _ & _ & Hq');
      [rewrite Hc; eauto|].
    exists evs, u, u'. split; [exact Hr|]. split; [exact Hj|].
    split; [exact Hws|]. rewrite Hq'. exact Hq.
Defined.

(** ** A single waiter *)

Lemma filter_other_singleton (c : tid) : filter (λ x, x ≠ c) [c] = [].
Proof.
  rewrite filter_cons. destruct (decide (c ≠ c)); [contradiction | reflexivity].
Qed.

Lemma executing_running (ws : list worker_pc) (id : nat) (job : Job) :
  ws !! id = Some (RunningJob job) → 1 ≤ executing ws.
Proof.
  intros Hw. pose proof (executing_insert ws id _ AtLoopHead Hw) as H.
  simpl in H. lia.
Qed.

(** With a single waiting thread and no [clearQueue], the waiter is blocked
    only while work is pending and the waiter flag is set. *)
Lemma single_waiter_step (c : tid) (e : event) (s s' : ThreadPool) :
  only_waiter c e = true →
  step e s = Some s' →
  counter_covers_jobs s →
  (m_pending_jobs s < SSIZE_MAX)%Z →
  single_waiter c s →
  single_waiter c s'.
Proof.
  unfold single_waiter, counter_covers_jobs. intros Hok Hstep Hcov Hmax Hinv.
  assert (∀ z, (0 ≤ z ≤ m_pending_jobs s + 1)%Z → to_ssize z = z) as Hwrap
    by (intros z Hz; apply to_ssize_in_range; unfold SSIZE_MIN, SSIZE_MAX in *; lia).
  destruct e as [j pick|n hw|c' cq|c'|c'|c'| |id pick|id|c']; simpl in Hstep;
    simpl in Hok; try discriminate Hok.
  - injection Hstep as <-. simpl. rewrite Hwrap by lia.
    destruct Hinv as [H|[(H1 & H2 & H3 & H4)|H]]; [left; exact H | | right; right; exact H].
    right. left. repeat split; try assumption. lia.
  - destruct (bool_decide (stop_joining s = ∅)); [|discriminate].
    injection Hstep as <-. unfold start. destruct (m_stopped s); exact Hinv.
  - destruct (busy c' s); [discriminate|]. injection Hstep as <-.
    unfold stop_lock. destruct (m_stopped s); exact Hinv.
  - unfold stop_join in Hstep.
    destruct (stop_joining s !! c') as [k|]; [|discriminate].
    destruct (m_worker_threads s !! k) as [[]|]; try discriminate;
      injection Hstep as <-; exact Hinv.
  - apply Nat.eqb_eq in Hok as ->.
    destruct (busy c s) eqn:Hb; [discriminate|]. injection Hstep as <-.
    unfold busy in Hb. apply orb_false_iff in Hb as [Hb _].
    apply orb_false_iff in Hb as [Hb1 Hb2].
    apply bool_decide_eq_false in Hb1. apply bool_decide_eq_false in Hb2.
    destruct Hinv as [[H1 H2]|[(H1 & _)|(_ & H2 & _)]].
    + unfold wait_enter. destruct (0 <? m_pending_jobs s)%Z eqn:Hp; simpl.
      * right. left. rewrite H1. repeat split; [exact H2 | lia].
      * left. split; assumption.
    + destruct Hb1. rewrite H1. apply list_elem_of_singleton. reflexivity.
    + destruct Hb2. rewrite H2. apply list_elem_of_singleton. reflexivity.
  - apply Nat.eqb_eq in Hok as ->.
    destruct (bool_decide (c ∈ counter_woken s)) eqn:Hb; [|discriminate].
    apply bool_decide_eq_true in Hb. injection Hstep as <-.
    destruct Hinv as [[_ H2]|[(_ & H2 & _)|(H1 & H2 & H3)]];
      [rewrite H2 in Hb; apply elem_of_nil in Hb; contradiction ..|].
    unfold wait_wake. rewrite H1, H2, filter_other_singleton.
    destruct (m_pending_jobs s =? 0)%Z eqn:Hp; simpl.
    + left. split; reflexivity.
    + right. left. repeat split; [exact H3 | lia].
  - apply workerLoop_step_cases in Hstep as [[Hw H]|(job & Hw & ->)].
    + apply workerLoop_fetch_cases in H
        as [[_ ->]|[(_ & _ & ->)|(_ & job & rest & _ & ->)]]; exact Hinv.
    + pose proof (executing_running _ _ _ Hw) as Hrunning.
      unfold workerLoop_finish. simpl. rewrite Hwrap by lia.
      destruct Hinv as [[H1 H2]|[(H1 & H2 & H3 & H4)|(H1 & H2 & H3)]];
        rewrite H1, H2.
      * left. destruct ((m_pending_jobs s - 1 =? 0)%Z && m_waiting s);
          split; reflexivity.
      * rewrite H3, andb_true_r, counter_notify_one_singleton.
        destruct (m_pending_jobs s - 1 =? 0)%Z eqn:Hp; simpl.
        -- right. right. repeat split.
        -- right. left. repeat split. lia.
      * right. right.
        destruct ((m_pending_jobs s - 1 =? 0)%Z && m_waiting s);
          repeat split; exact H3.
  - unfold spurious_worker in Hstep.
    destruct (m_worker_threads s !! id) as [[]|]; try discriminate.
    injection Hstep as <-. exact Hinv.
  - apply Nat.eqb_eq in Hok as ->. unfold spurious_waiter in Hstep.
    destruct (bool_decide (c ∈ m_counter_cv s)) eqn:Hb; [|discriminate].
    apply bool_decide_eq_true in Hb. injection Hstep as <-. simpl.
    destruct Hinv as [[H1 _]|[(H1 & H2 & H3 & _)|(H1 & _)]];
      [rewrite H1 in Hb; apply elem_of_nil in Hb; contradiction | |
       rewrite H1 in Hb; apply elem_of_nil in Hb; contradiction].
    right. right. rewrite H1, H2, filter_other_singleton.
    repeat split. exact H3.
Qed.

(** X9.  No wake-up is lost when one thread waits.  Along a run from
    construction in which [c] is the only thread that calls [wait] and
    [clearQueue] is not called (fewer than [SSIZE_MAX] submissions), thread
    [c] is blocked on [m_counter_cv] only while [pendingJobs] is positive
    and the waiter flag is set: at counter 0 it is never blocked, and once
    woken at counter 0 its [wait] returns. *)
Theorem single_waiter_never_stuck
  (auto_start : bool) (worker_count hw : nat) (evs : list event)
  (s : ThreadPool) (c : tid) :
  run evs (ThreadPool_ctor auto_start worker_count hw) = Some s →
  (∀ e, e ∈ evs → only_waiter c e = true) →
  (Z.of_nat (length (submitted evs)) < SSIZE_MAX)%Z →
  (c ∈ m_counter_cv s → (0 < pendingJobs s)%Z ∧ m_waiting s = true) ∧
  (pendingJobs s = 0%Z → c ∉ m_counter_cv s) ∧
  (pendingJobs s = 0%Z → c ∈ counter_woken s →
   step (EvWaitWake c) s = Some (snd (wait_wake c s)) ∧
   fst (wait_wake c s) = true ∧
   ¬ in_wait c (snd (wait_wake c s))).
Proof.
  intros Hrun Hev Hmax.
  destruct (run_bounded (single_waiter c) (only_waiter c))
    with (evs := evs) (s := ThreadPool_ctor auto_start worker_count hw)
         (s' := s) (k := 0%Z) as (Hinv & Hcov & Hle); try assumption.
  - intros e s1 s2 He Hstep Hc Hlt Hs.
    apply (single_waiter_step c e s1 s2 He Hstep Hc Hlt Hs).
  - apply counter_covers_jobs_ctor.
  - left. unfold ThreadPool_ctor. destruct auto_start; split; reflexivity.
  - rewrite pending_jobs_ctor. lia.
  - unfold counter_covers_jobs in Hcov.
    assert (pendingJobs s = m_pending_jobs s) as Hp
      by (apply to_size_in_range; lia).
    rewrite Hp. unfold single_waiter in Hinv.
    split; [|split].
    + intros Hin. destruct Hinv as [[H1 _]|[(_ & _ & H3 & H4)|(H1 & _)]];
        [rewrite H1 in Hin; apply elem_of_nil in Hin; contradiction | |
         rewrite H1 in Hin; apply elem_of_nil in Hin; contradiction].
      split; assumption.
    + intros H0 Hin. destruct Hinv as [[H1 _]|[(_ & _ & _ & H4)|(H1 & _)]];
        [rewrite H1 in Hin; apply elem_of_nil in Hin; contradiction | lia |
         rewrite H1 in Hin; apply elem_of_nil in Hin; contradiction].
    + intros H0 Hin.
      destruct Hinv as [[_ H2]|[(_ & H2 & _)|(H1 & H2 & _)]];
        [rewrite H2 in Hin; apply elem_of_nil in Hin; contradiction ..|].
      split; [simpl; rewrite bool_decide_eq_true_2 by exact Hin; reflexivity|].
      unfold wait_wake, in_wait. rewrite H0, H1, H2, filter_other_singleton.
      simpl. split; [reflexivity|].
      intros [H|H]; apply elem_of_nil in H; contradiction.
Qed.

Lemma single_waiter_never_stuck_witness :
  run [EvAddJob 7 0; EvWorker 0 0; EvWait 1; EvWorker 0 0] (ThreadPool_ctor true 1 0)
  = Some (mkThreadPool false true [] [AtLoopHead] 0%Z [] [1] ∅) ∧
  fst (wait_wake 1 (mkThreadPool false true [] [AtLoopHead] 0%Z [] [1] ∅)) = true.
Proof.
  assert (run [EvAddJob 7 0; EvWorker 0 0; EvWait 1; EvWorker 0 0]
            (ThreadPool_ctor true 1 0)
          = Some (mkThreadPool false true [] [AtLoopHead] 0%Z [] [1] ∅)) as Hrun
    by (vm_compute; reflexivity).
  split; [exact Hrun|].
  destruct (single_waiter_never_stuck true 1 0 _ _ 1 Hrun) as (_ & _ & H).
  - intros e He. repeat (apply elem_of_cons in He as [->|He]; [reflexivity|]).
    apply elem_of_nil in He. contradiction.
  - vm_compute. reflexivity.
  - apply H; [reflexivity|]. apply list_elem_of_singleton. reflexivity.
Defined.

(** X10.  [clearQueue] does not signal [m_counter_cv].  If a thread is blocked
    in [wait] while all pending jobs are still queued, a [clearQueue] brings
    [pendingJobs] to 0 and leaves that thread in the wait set: its [wait]
    cannot re-check the counter until something else wakes it. *)
Theorem clearQueue_leaves_waiter_blocked (s : ThreadPool) (c : tid) :
  c ∈ m_counter_cv s →
  c ∉ counter_woken s →
  m_pending_jobs s = Z.of_nat (length (m_job_queue s)) →
  (m_pending_jobs s ≤ SSIZE_MAX)%Z →
  let s' := snd (clearQueue s) in
  pendingJobs s' = 0%Z ∧
  m_counter_cv s' = m_counter_cv s ∧
  counter_woken s' = counter_woken s ∧
  c ∈ m_counter_cv s' ∧
  step (EvWaitWake c) s' = None.
Proof.
  intros Hin Hout Hp Hmax. simpl. unfold pendingJobs. simpl.
  rewrite Hp, Z.sub_diag. split; [reflexivity|].
  split; [reflexivity|]. split; [reflexivity|]. split; [exact Hin|].
  rewrite bool_decide_eq_false_2 by exact Hout. reflexivity.
Qed.

Lemma clearQueue_leaves_waiter_blocked_witness :
  run [EvAddJob 7 0; EvWait 1] (ThreadPool_ctor false 0 0)
  = Some (mkThreadPool true true [7] [] 1%Z [1] [] ∅) ∧
  step (EvWaitWake 1) (snd (clearQueue (mkThreadPool true true [7] [] 1%Z [1] [] ∅)))
  = None.
Proof.
  split; [vm_compute; reflexivity|].
  refine (proj2 (proj2 (proj2 (proj2
    (clearQueue_leaves_waiter_blocked
       (mkThreadPool true true [7] [] 1%Z [1] [] ∅) 1 _ _ eq_refl _))))).
  - apply list_elem_of_singleton. reflexivity.
  - intros H. apply elem_of_nil in H. contradiction.
  - vm_compute. discriminate.
Defined.

(** ** The jobs of the examples *)

Lemma to_int_in_range (z : Z) : (INT_MIN ≤ z ≤ INT_MAX)%Z → to_int z = z.
Proof.
  unfold to_int, INT_MIN, INT_MAX. intros Hz. rewrite Z.mod_small; lia.
Qed.

Lemma to_int_bounds (z : Z) : (INT_MIN ≤ to_int z ≤ INT_MAX)%Z.
Proof.
  unfold to_int, INT_MIN, INT_MAX.
  pose proof (Z.mod_pos_bound (z + 2 ^ 31) (2 ^ 32)) as H. lia.
Qed.

Lemma to_int_add_l (a x : Z) : to_int (to_int a + x) = to_int (a + x).
Proof.
  unfold to_int. f_equal.
  replace ((a + 2 ^ 31) mod 2 ^ 32 - 2 ^ 31 + x + 2 ^ 31)%Z
    with ((a + 2 ^ 31) mod 2 ^ 32 + x)%Z by lia.
  rewrite Zplus_mod_idemp_l. f_equal. lia.
Qed.

Lemma accumulate_wraps (inputs : list Z) (a : Z) :
  fold_left (λ acc i, to_int (acc + i)) inputs (to_int a)
  = to_int (a + total inputs).
Proof.
  revert a. induction inputs as [|x inputs IH]; intros a; simpl.
  - rewrite Z.add_0_r. reflexivity.
  - rewrite to_int_add_l, IH. f_equal. lia.
Qed.

Lemma total_app (xs ys : list Z) : total (xs ++ ys) = (total xs + total ys)%Z.
Proof.
  induction xs as [|x xs IH]; simpl; [reflexivity|].
  unfold total in *. simpl. rewrite IH. lia.
Qed.

Lemma total_rev (inputs : list Z) : total (rev inputs) = total inputs.
Proof.
  induction inputs as [|x inputs IH]; simpl; [reflexivity|].
  rewrite total_app, IH. unfold total. simpl. lia.
Qed.

(** X11.  [workFunc] returns the sum of its inputs reduced to an [int]: the
    sum itself whenever it fits (0 for no inputs), whatever the order and
    the intermediate wrap-arounds, and always a value within [int]. *)
Theorem workFunc_sums_inputs (inputs : list Z) :
  TestClass.workFunc inputs = to_int (total inputs) ∧
  (INT_MIN ≤ TestClass.workFunc inputs ≤ INT_MAX)%Z ∧
  ((INT_MIN ≤ total inputs ≤ INT_MAX)%Z →
   TestClass.workFunc inputs = total inputs) ∧
  TestClass.workFunc (rev inputs) = TestClass.workFunc inputs.
Proof.
  assert (∀ l, TestClass.workFunc l = to_int (total l)) as H.
  { intros l. unfold TestClass.workFunc.
    change 0%Z with (to_int 0) at 1. apply accumulate_wraps. }
  split; [apply H|]. split; [rewrite H; apply to_int_bounds|].
  split; [intros Hr; rewrite H; apply to_int_in_range, Hr|].
  rewrite !H, total_rev. reflexivity.
Qed.

(** X12.  [workFunc2] hands back the inputs in reverse order, so reversing
    its result gives the inputs again; its sum is the value [workFunc]
    computes on the same inputs, and [even_sum] tells whether that sum is
    even, for negative sums too. *)
Theorem workFunc2_consistent (inputs : list Z) :
  TestClass.result (TestClass.workFunc2 inputs) = rev inputs ∧
  rev (TestClass.result (TestClass.workFunc2 inputs)) = inputs ∧
  length (TestClass.result (TestClass.workFunc2 inputs)) = length inputs ∧
  TestClass.sum (TestClass.workFunc2 inputs) = TestClass.workFunc inputs ∧
  TestClass.even_sum (TestClass.workFunc2 inputs)
  = Z.even (TestClass.workFunc inputs).
Proof.
  assert (TestClass.sum (TestClass.workFunc2 inputs) = TestClass.workFunc inputs)
    as Hsum.
  { unfold TestClass.workFunc2, TestClass.workFunc. simpl.
    change 0%Z with (to_int 0). rewrite !accumulate_wraps, total_rev. reflexivity. }
  split; [reflexivity|]. split; [apply rev_involutive|].
  split; [apply length_rev|]. split; [exact Hsum|].
  rewrite <- Hsum. simpl.
  set (s := fold_left (λ acc i, to_int (acc + i)) (rev inputs) 0%Z).
  destruct (Z.rem s 2 =? 0)%Z eqn:Hr; simpl; symmetry.
  - apply Z.eqb_eq in Hr. apply Z.even_spec.
    apply Z.rem_divide in Hr as [k Hk]; [|discriminate]. exists k. lia.
  - apply Z.eqb_neq in Hr. destruct (Z.even s) eqn:He; [|reflexivity].
    destruct Hr. apply Z.even_spec in He as [k Hk].
    apply Z.rem_divide; [discriminate|]. exists k. lia.
Qed.

(** ** A pool built without auto-start *)

Lemma run_submit_all (jobs : list Job) :
  ∀ s,
    m_worker_threads s = [] →
    (0 ≤ m_pending_jobs s)%Z →
    (m_pending_jobs s + Z.of_nat (length jobs) ≤ SSIZE_MAX)%Z →
    ∃ s',
      run (submit_all jobs) s = Some s' ∧
      m_job_queue s' = m_job_queue s ++ jobs ∧
      m_pending_jobs s' = (m_pending_jobs s + Z.of_nat (length jobs))%Z ∧
      m_worker_threads s' = [] ∧
      m_stopped s' = m_stopped s ∧
      stop_joining s' = stop_joining s.
Proof.
  induction jobs as [|job jobs IH]; intros s Hws Hp Hmax.
  - exists s. simpl. rewrite app_nil_r, Z.add_0_r. repeat split. exact Hws.
  - simpl length in Hmax.
    assert (to_ssize (m_pending_jobs s + 1) = (m_pending_jobs s + 1)%Z) as Hwrap
      by (apply to_ssize_in_range; unfold SSIZE_MIN, SSIZE_MAX in *; lia).
    destruct (IH (addJob job 0 s)) as (s' & Hrun & Hq & Hp' & Hws' & Hst & Hj).
    + simpl. rewrite Hws. reflexivity.
    + simpl. rewrite Hwrap. lia.
    + simpl. rewrite Hwrap. lia.
    + exists s'. split; [exact Hrun|]. simpl in Hq, Hp', Hst, Hj.
      rewrite Hwrap in Hp'. rewrite <- app_assoc in Hq.
      split; [exact Hq|]. split; [simpl length; lia|]. repeat split; assumption.
Qed.

(** X13.  A pool constructed without auto-start is Stopped, has no worker
    thread whatever [worker_count] is, and holds what is submitted: after
    the submission of [jobs] (fewer than [SSIZE_MAX]) the queue is [jobs] in
    order, [pendingJobs] and [queuedJobs] are their number, [runningJobs]
    is 0 and no worker can move.  A [start] then succeeds, and the first
    step of a worker takes the first job submitted. *)
Theorem stopped_pool_holds_submissions
  (worker_count hw : nat) (jobs : list Job) :
  (Z.of_nat (length jobs) < SSIZE_MAX)%Z →
  ∃ s,
    run (submit_all jobs) (ThreadPool_ctor false worker_count hw) = Some s ∧
    isStopped s = true ∧
    m_worker_threads s = [] ∧
    m_job_queue s = jobs ∧
    pendingJobs s = Z.of_nat (length jobs) ∧
    queuedJobs s = Z.of_nat (length jobs) ∧
    runningJobs s = 0%Z ∧
    (∀ id pick, workerLoop_step id pick s = None) ∧
    (∀ n job rest, jobs = job :: rest →
       fst (start (S n) hw s) = true ∧
       ∃ s', workerLoop_step 0 0 (snd (start (S n) hw s)) = Some s' ∧
             m_worker_threads s' !! 0 = Some (RunningJob job) ∧
             m_job_queue s' = rest).
Proof.
  intros Hmax.
  destruct (run_submit_all jobs (ThreadPool_ctor false worker_count hw))
    as (s & Hrun & Hq & Hp & Hws & Hst & Hj);
    [reflexivity | simpl; lia | simpl; lia |].
  simpl in Hq, Hp, Hst. exists s. split; [exact Hrun|].
  split; [exact Hst|]. split; [exact Hws|]. split; [exact Hq|].
  unfold pendingJobs, queuedJobs, runningJobs. rewrite Hp, Hq.
  split; [apply to_size_in_range; lia|]. split; [reflexivity|].
  split; [rewrite Z.sub_diag; reflexivity|]. split.
  - intros id pick. unfold workerLoop_step. rewrite Hws, lookup_nil. reflexivity.
  - intros n job rest ->.
    unfold start. unfold isStopped in Hst. rewrite Hst, Hws. simpl.
    split; [reflexivity|].
    eexists. split.
    + unfold workerLoop_step, workerLoop_fetch. simpl. rewrite Hq. reflexivity.
    + simpl. split; reflexivity.
Qed.

Lemma stopped_pool_holds_submissions_witness :
  ∃ s, run (submit_all [3; 4]) (ThreadPool_ctor false 8 0) = Some s ∧
       m_job_queue s = [3; 4] ∧ pendingJobs s = 2%Z.
Proof.
  destruct (stopped_pool_holds_submissions 8 0 [3; 4])
    as (s & Hrun & _ & _ & Hq & Hp & _); [vm_compute; reflexivity|].
  exists s. split; [exact Hrun|]. split; [exact Hq | exact Hp].
Defined.

(** ** A pool without workers *)

Lemma no_workers_step (e : event) (s s' : ThreadPool) :
  step e s = Some s' →
  not_start e = true →
  m_worker_threads s = [] →
  m_worker_threads s' = [] ∧ fetched e s s' = [].
Proof.
  intros Hstep Hns Hws.
  destruct e as [j pick|n hw|c cq|c|c|c| |id pick|id|c]; simpl in Hstep;
    try discriminate Hns; simpl.
  - injection Hstep as <-. simpl. rewrite Hws. unfold notify_one.
    rewrite lookup_nil. split; reflexivity.
  - destruct (busy c s); [discriminate|]. injection Hstep as <-.
    unfold stop_lock. destruct (m_stopped s); simpl; rewrite Hws; split; reflexivity.
  - unfold stop_join in Hstep.
    destruct (stop_joining s !! c) as [k|]; [|discriminate].
    destruct (m_worker_threads s !! k) as [[]|]; try discriminate;
      injection Hstep as <-; simpl; split; (reflexivity || exact Hws).
  - destruct (busy c s); [discriminate|]. injection Hstep as <-.
    unfold wait_enter. destruct (0 <? m_pending_jobs s)%Z; simpl;
      split; (reflexivity || exact Hws).
  - destruct (bool_decide (c ∈ counter_woken s)); [|discriminate].
    injection Hstep as <-. unfold wait_wake.
    destruct (m_pending_jobs s =? 0)%Z; simpl; split; (reflexivity || exact Hws).
  - injection Hstep as <-. simpl. split; [exact Hws | reflexivity].
  - unfold workerLoop_step in Hstep. rewrite Hws, lookup_nil in Hstep. discriminate.
  - unfold spurious_worker in Hstep. rewrite Hws, lookup_nil in Hstep. discriminate.
  - unfold spurious_waiter in Hstep.
    destruct (bool_decide (c ∈ m_counter_cv s)); [|discriminate].
    injection Hstep as <-. simpl. split; [exact Hws | reflexivity].
Qed.

Lemma no_workers_run (evs : list event) (s s' : ThreadPool) :
  run evs s = Some s' →
  (∀ e, e ∈ evs → not_start e = true) →
  m_worker_threads s = [] →
  m_worker_threads s' = [] ∧ started evs s = [].
Proof.
  revert s. induction evs as [|e evs IH]; intros s Hrun Hev Hws; simpl in *.
  - injection Hrun as <-. split; [exact Hws | reflexivity].
  - destruct (step e s) as [s1|] eqn:Hstep; [|discriminate].
    destruct (no_workers_step e s s1 Hstep) as [Hws1 ->];
      [apply Hev; left | exact Hws |].
    simpl. apply IH; [exact Hrun | | exact Hws1].
    intros e' He'. apply Hev. right. exact He'.
Qed.

(** X14.  [start(0)] relies on [hardware_concurrency], which may answer 0.
    On a Stopped pool without workers the call then still reports success
    and makes the pool Running, but with no worker thread: until another
    [start], whatever is submitted, no job is ever started, and what is
    submitted stays queued unless it is discarded. *)
Theorem start_without_hardware_threads (s : ThreadPool) :
  isStopped s = true →
  m_worker_threads s = [] →
  let s' := snd (start 0 0 s) in
  fst (start 0 0 s) = true ∧
  isStopped s' = false ∧
  m_worker_threads s' = [] ∧
  ∀ evs t, run evs s' = Some t → (∀ e, e ∈ evs → not_start e = true) →
    started evs s' = [] ∧
    m_worker_threads t = [] ∧
    ((∀ e, e ∈ evs → discards e = false) →
     m_job_queue t = m_job_queue s ++ submitted evs).
Proof.
  unfold isStopped. intros Hst Hws. unfold start. rewrite Hst, Hws. simpl.
  split; [reflexivity|]. split; [reflexivity|]. split; [reflexivity|].
  intros evs t Hrun Hev.
  destruct (no_workers_run evs _ t Hrun Hev eq_refl) as [Hwt Hs].
  split; [exact Hs|]. split; [exact Hwt|].
  intros Hd. pose proof (run_fifo evs _ t Hrun Hd) as H.
  rewrite Hs in H. simpl in H. symmetry. exact H.
Qed.

Lemma start_without_hardware_threads_witness :
  isStopped empty_pool = true ∧
  m_worker_threads empty_pool = [] ∧
  started [EvAddJob 7 0; EvWait 1] (snd (start 0 0 empty_pool)) = [].
Proof.
  split; [reflexivity|]. split; [reflexivity|].
  destruct (start_without_hardware_threads empty_pool eq_refl eq_refl)
    as (_ & _ & _ & H).
  refine (proj1 (H [EvAddJob 7 0; EvWait 1] _ _ _)).
  - vm_compute. reflexivity.
  - intros e He. repeat (apply elem_of_cons in He as [->|He]; [reflexivity|]).
    apply elem_of_nil in He. contradiction.
Defined.
